(** * Catalog processing engine, integration-test harness and release patch flow

    Shallow embedding of
    - the catalog processing engine exercised by the catalog integration test
      (refresh-state store, orchestrator, engine pass, stitcher),
    - the [WaitingProgressTracker] and [getOutputEntities] of that test
      harness,
    - the [patch] side-effect chain of the github-release-manager plugin,
    - the release version [PromoteRcBody] derives from the candidate's tag. *)

From stdpp Require Import base gmap strings list.

Local Open Scope string_scope.

(* ------------------------------------------------------------------ *)
(** ** Entities, relations and errors *)

Record Entity := mkEntity {
  apiVersion : string;
  kind : string;
  metadata_namespace : option string;
  metadata_name : string;
  metadata_annotations : list (string * string);
  spec_noEmit : bool
}.

Global Instance Entity_eq_dec : EqDecision Entity.
Proof. solve_decision. Defined.

Definition lowerAscii (c : Ascii.ascii) : Ascii.ascii :=
  let n := Ascii.nat_of_ascii c in
  if (65 <=? n)%nat && (n <=? 90)%nat then Ascii.ascii_of_nat (n + 32)%nat else c.

Fixpoint toLowerCase (s : string) : string :=
  match s with
  | EmptyString => EmptyString
  | String c s' => String (lowerAscii c) (toLowerCase s')
  end.

(** [stringifyEntityRef]: [kind:namespace/name], lower-cased, with the
    namespace defaulting to [default]. *)
Definition stringifyEntityRef (e : Entity) : string :=
  toLowerCase (kind e) +:+ ":" +:+
  toLowerCase (default "default" (metadata_namespace e)) +:+ "/" +:+
  toLowerCase (metadata_name e).

Record Relation := mkRelation {
  rel_type : string;
  rel_source : string;
  rel_target : string
}.

Global Instance Relation_eq_dec : EqDecision Relation.
Proof. solve_decision. Defined.

(** A serialised error: name, message and an optional (name, message) cause. *)
Record ErrorValue := mkError {
  err_name : string;
  err_message : string;
  err_cause : option (string * string)
}.

Global Instance ErrorValue_eq_dec : EqDecision ErrorValue.
Proof. solve_decision. Defined.

Record StatusItem := mkStatusItem {
  st_level : string;
  st_type : string;
  st_message : string;
  st_error : ErrorValue
}.

(** The materialized (visible) entity produced by the stitcher. *)
Record Materialized := mkMaterialized {
  m_entity : Entity;
  m_relations : list (string * string);   (* (type, targetRef) *)
  m_status : list StatusItem
}.

(* ------------------------------------------------------------------ *)
(** ** Processors and orchestrator *)

(** What a processor passes to its [emit] callback. *)
Inductive Emitted :=
  | EmitEntity (e : Entity)
  | EmitRelation (r : Relation).

Inductive ProcOutcome :=
  | ProcReturn (e : Entity)
  | ProcThrow (cause : ErrorValue).

(** A processor: its constructor name (used when wrapping its errors) and its
    [preProcessEntity] step, which emits a list of items and then returns or
    throws. *)
Record Processor := mkProcessor {
  processorCtorName : string;
  preProcessEntity : Entity -> list Emitted * ProcOutcome
}.

Inductive OrchResult :=
  | OrchOk (processed : Entity) (deferredEntities : list Entity)
           (relations : list Relation)
  | OrchErr (errs : list ErrorValue).

Global Instance OrchResult_eq_dec : EqDecision OrchResult.
Proof. solve_decision. Defined.

Definition emittedEntities (em : list Emitted) : list Entity :=
  omap (fun x => match x with EmitEntity e => Some e | _ => None end) em.

Definition emittedRelations (em : list Emitted) : list Relation :=
  omap (fun x => match x with EmitRelation r => Some r | _ => None end) em.

(** Modelled from the spec: the orchestrator (not part of the sources) runs
    the processors in registration order; a processor failure is caught,
    wrapped with the processor's identity and the cause, and aborts the pass
    of this entity; the emitted items are then discarded. *)
Definition wrapProcessorError (p : Processor) (c : ErrorValue) : ErrorValue :=
  mkError "InputError"
    ("Processor " +:+ processorCtorName p +:+
     " threw an error while preprocessing; caused by " +:+
     err_name c +:+ ": " +:+ err_message c)
    (Some (err_name c, err_message c)).

Fixpoint runProcessors (ps : list Processor) (e : Entity) (acc : list Emitted)
  : OrchResult :=
  match ps with
  | [] => OrchOk e (emittedEntities acc) (emittedRelations acc)
  | p :: ps' =>
      let '(em, out) := preProcessEntity p e in
      match out with
      | ProcReturn e' => runProcessors ps' e' (app acc em)
      | ProcThrow c => OrchErr [wrapProcessorError p c]
      end
  end.

Definition orchestrate (ps : list Processor) (e : Entity) : OrchResult :=
  runProcessors ps e [].

(* ------------------------------------------------------------------ *)
(** ** Processing store *)

Record Input := mkInput {
  unprocessedEntity : Entity;
  locationKey : option string
}.

Record ResultState := mkResultState {
  processedEntity : option Entity;
  errors : list ErrorValue;
  resultHash : option OrchResult
}.

(** Modelled from the spec: the refresh-state table (split into the input
    part written by mutations and emissions, and the result part written by
    processing), the [refresh_state_references] of providers and of emitting
    entities, the relation table keyed by originating entity, and the
    stitched final entities. *)
Record Store := mkStore {
  inputs : gmap string Input;
  results : gmap string ResultState;
  providerRefs : gmap string (list string);
  parentRefs : gmap string (list string);
  relationsBy : gmap string (list Relation);
  finals : gmap string Materialized
}.

Definition emptyStore : Store := mkStore ∅ ∅ ∅ ∅ ∅ ∅.

(** The refresh-state item of a reference, as the spec lists its fields. *)
Record RefreshStateItem := mkRefreshStateItem {
  rs_entityRef : string;
  rs_unprocessedEntity : Entity;
  rs_processedEntity : option Entity;
  rs_errors : list ErrorValue;
  rs_locationKey : option string;
  rs_resultHash : option OrchResult
}.

Definition itemOf (st : Store) (r : string) : option RefreshStateItem :=
  match inputs st !! r with
  | None => None
  | Some i =>
      let rs := default (mkResultState None [] None) (results st !! r) in
      Some (mkRefreshStateItem r (unprocessedEntity i) (processedEntity rs)
              (errors rs) (locationKey i) (resultHash rs))
  end.

(** Location-key arbitration: an existing non-null key [l] rejects every
    write carrying another key. *)
Definition conflicts (old new : option string) : bool :=
  match old with
  | Some l => negb (bool_decide (new = Some l))
  | None => false
  end.

Inductive UpsertOutcome :=
  | UpsertAccepted (ins : gmap string Input)
  | UpsertRejected.

Definition upsertItem (ins : gmap string Input) (r : string) (e : Entity)
  (k : option string) : UpsertOutcome :=
  match ins !! r with
  | Some i =>
      if conflicts (locationKey i) k then UpsertRejected
      else UpsertAccepted (<[r := mkInput e k]> ins)
  | None => UpsertAccepted (<[r := mkInput e k]> ins)
  end.

(** Upsert a batch; returns the new inputs and the accepted references. *)
Fixpoint upsertAll (ins : gmap string Input) (es : list (Entity * option string))
  : gmap string Input * list string :=
  match es with
  | [] => (ins, [])
  | (e, k) :: es' =>
      match upsertItem ins (stringifyEntityRef e) e k with
      | UpsertAccepted ins' =>
          let '(ins'', acc) := upsertAll ins' es' in
          (ins'', stringifyEntityRef e :: acc)
      | UpsertRejected => upsertAll ins es'
      end
  end.

(** A [full] provider mutation: upsert every entity, then the provider's
    claimed set becomes exactly the accepted references. *)
Definition applyFullMutation (provider : string)
  (es : list (Entity * option string)) (st : Store) : Store :=
  let '(ins, acc) := upsertAll (inputs st) es in
  mkStore ins (results st) (<[provider := acc]> (providerRefs st))
    (parentRefs st) (relationsBy st) (finals st).

(* ------------------------------------------------------------------ *)
(** ** Stitcher *)

Definition orphanAnnotation : string := "backstage.io/orphan".

(** Is [r] claimed by some provider or by some emitting entity? *)
Definition hasIncoming (st : Store) (r : string) : bool :=
  existsb (fun p : string * list string => bool_decide (r ∈ p.2))
    (map_to_list (providerRefs st)) ||
  existsb (fun p : string * list string => bool_decide (r ∈ p.2))
    (map_to_list (parentRefs st)).

(** Relations whose source is [r], whichever entity asserted them. *)
Definition relationsFor (st : Store) (r : string) : list (string * string) :=
  flat_map (fun '(_, rels) =>
      map (fun rl => (rel_type rl, rel_target rl))
        (filter (fun rl => rel_source rl = r) rels))
    (map_to_list (relationsBy st)).

Definition toStatusItem (e : ErrorValue) : StatusItem :=
  mkStatusItem "error" "backstage.io/catalog-processing"
    (err_name e +:+ ": " +:+ err_message e) e.

(** Modelled from the spec: the orphan annotation is set when the entity is
    not claimed and cleared when it is reclaimed. *)
Definition withOrphanMarker (orphan : bool) (e : Entity) : Entity :=
  mkEntity (apiVersion e) (kind e) (metadata_namespace e) (metadata_name e)
    (app (filter (fun kv => kv.1 <> orphanAnnotation) (metadata_annotations e))
         (if orphan then [(orphanAnnotation, "true")] else []))
    (spec_noEmit e).

Definition isOrphanMarked (m : Materialized) : bool :=
  existsb (fun kv => bool_decide (kv.1 = orphanAnnotation))
    (metadata_annotations (m_entity m)).

(** Modelled from the spec: the stitcher's recomputation of the visible
    entity of [r] from its refresh-state item and the edges touching it. *)
Definition stitchEntity (st : Store) (r : string) : option Materialized :=
  match results st !! r with
  | Some rs =>
      match processedEntity rs with
      | Some pe =>
          Some (mkMaterialized (withOrphanMarker (negb (hasIncoming st r)) pe)
                  (relationsFor st r) (map toStatusItem (errors rs)))
      | None => None
      end
  | None => None
  end.

Definition setFinals (st : Store) (f : gmap string Materialized) : Store :=
  mkStore (inputs st) (results st) (providerRefs st) (parentRefs st)
    (relationsBy st) f.

(** [stitch(entityRef)]: write the recomputed visible entity of [r]. *)
Definition stitch (st : Store) (r : string) : Store :=
  match stitchEntity st r with
  | Some m => setFinals st (<[r := m]> (finals st))
  | None => setFinals st (delete r (finals st))
  end.

(** Stitch every known reference. *)
Definition stitchAll (st : Store) : Store :=
  setFinals st (map_imap (fun r _ => stitchEntity st r) (inputs st)).

(* ------------------------------------------------------------------ *)
(** ** Processing engine *)

(** Callbacks on the tracking object returned by [processStart]. *)
Inductive Callback :=
  | CbProcessorsCompleted
  | CbSuccessNoChange
  | CbSuccessWithChange
  | CbSuccessWithErrors
  | CbFailed (err : string).

Definition isTerminal (c : Callback) : bool :=
  match c with CbProcessorsCompleted => false | _ => true end.

(** Store operations that may fail (a database error). *)
Inductive StoreOp := OpWriteErrors | OpWriteResult | OpStitch | OpUpdateNextRefresh.

(** The engine's effects: the store, the callbacks issued so far, and
    exceptions (the [inl] branch). *)
Definition Eng (A : Type) : Type :=
  Store * list Callback -> (string + A) * (Store * list Callback).

Global Instance Eng_ret : MRet Eng := fun A x s => (inr x, s).
Global Instance Eng_bind : MBind Eng := fun A B f m s =>
  match m s with
  | (inr x, s') => f x s'
  | (inl e, s') => (inl e, s')
  end.

Definition track (c : Callback) : Eng unit := fun '(st, t) => (inr (), (st, app t [c])).

Definition getStore : Eng Store := fun '(st, t) => (inr st, (st, t)).

(** A store operation: fails when the fault oracle says so. *)
Definition storeOp (fault : StoreOp -> option string) (op : StoreOp)
  (f : Store -> Store) : Eng unit :=
  fun '(st, t) =>
    match fault op with
    | Some e => (inl e, (st, t))
    | None => (inr (), (f st, t))
    end.

Definition catchE {A} (m : Eng A) (h : string -> Eng A) : Eng A :=
  fun s => match m s with
           | (inl e, s') => h e s'
           | r => r
           end.

Definition noFault : StoreOp -> option string := fun _ => None.

Definition resultOf (st : Store) (r : string) : ResultState :=
  default (mkResultState None [] None) (results st !! r).

(** Record processing errors; the previous processed entity, the emitted
    children and the relations stay as they were. *)
Definition writeErrors (x : string) (errs : list ErrorValue) (st : Store) : Store :=
  mkStore (inputs st)
    (<[x := mkResultState (processedEntity (resultOf st x)) errs None]> (results st))
    (providerRefs st) (parentRefs st) (relationsBy st) (finals st).

(** The location of an entity as the processors receive it: the target of
    its [backstage.io/managed-by-location] annotation. *)
Definition entityLocationKey (e : Entity) : option string :=
  snd <$> List.find (fun kv : string * string =>
                       bool_decide (kv.1 = "backstage.io/managed-by-location"))
            (metadata_annotations e).

(** Record a successful result: the processed entity, no errors, the
    emitted children (upserted under the emitting entity's location [loc],
    so subject to location-key arbitration, and claimed by [x]) and the
    relations asserted by [x]. *)
Definition writeResult (x : string) (loc : option string) (res : OrchResult)
  (st : Store) : Store :=
  match res with
  | OrchOk pe children rels =>
      let '(ins, acc) := upsertAll (inputs st) (map (fun c => (c, loc)) children) in
      mkStore ins (<[x := mkResultState (Some pe) [] (Some res)]> (results st))
        (providerRefs st) (<[x := acc]> (parentRefs st))
        (<[x := rels]> (relationsBy st)) (finals st)
  | OrchErr _ => st
  end.

(** Modelled from the spec: one processing attempt of the claimed item [x]
    (the engine's [processItem]); every exception ends in [markFailed]. *)
Definition processBody (fault : StoreOp -> option string) (ps : list Processor)
  (x : string) (inp : Input) : Eng unit :=
  st ← getStore;
  let res := orchestrate ps (unprocessedEntity inp) in
  track CbProcessorsCompleted;;
  match res with
  | OrchErr errs =>
      storeOp fault OpWriteErrors (writeErrors x errs);;
      storeOp fault OpStitch stitchAll;;
      track CbSuccessWithErrors
  | OrchOk _ _ _ =>
      if bool_decide (resultHash (resultOf st x) = Some res) then
        storeOp fault OpUpdateNextRefresh id;;
        track CbSuccessNoChange
      else
        storeOp fault OpWriteResult
          (writeResult x (entityLocationKey (unprocessedEntity inp)) res);;
        storeOp fault OpStitch stitchAll;;
        track CbSuccessWithChange
  end.

Definition processItem (fault : StoreOp -> option string) (ps : list Processor)
  (x : string) (inp : Input) : Eng unit :=
  catchE (processBody fault ps x inp) (fun e => track (CbFailed e)).

(** Run one attempt on a store with a fresh tracking object. *)
Definition runAttempt (fault : StoreOp -> option string) (ps : list Processor)
  (x : string) (inp : Input) (st : Store) : Store * list Callback :=
  (processItem fault ps x inp (st, [])).2.

Definition processRef (ps : list Processor) (st : Store) (x : string) : Store :=
  match inputs st !! x with
  | Some inp => (runAttempt noFault ps x inp st).1
  | None => st
  end.

(** One engine sweep: claim every item known at the start, process them in
    turn, then stitch. *)
Definition pass (ps : list Processor) (st : Store) : Store :=
  stitchAll (foldl (processRef ps) st (map fst (map_to_list (inputs st)))).

Fixpoint passes (n : nat) (ps : list Processor) (st : Store) : Store :=
  match n with
  | O => st
  | S n' => passes n' ps (pass ps st)
  end.

(** The catalog's [entities()] listing. *)
Definition outputEntities (st : Store) : gmap string Materialized := finals st.

(* ------------------------------------------------------------------ *)
(** ** The integration-test scenarios *)

Definition managedAnnotations : list (string * string) :=
  [("backstage.io/managed-by-location", "url:.");
   ("backstage.io/managed-by-origin-location", "url:.")].

Definition mkComponent (name : string) (noEmit : bool) : Entity :=
  mkEntity "backstage.io/v1alpha1" "Component" None name managedAnnotations noEmit.


(** The single processor registered by [TestHarness.create]: an object
    literal (constructor [Object]) whose [preProcessEntity] calls the test's
    [processEntity] option, or returns the entity unchanged. *)
Definition harnessProcessor
  (processEntity : option (Entity -> list Emitted * ProcOutcome)) : Processor :=
  mkProcessor "Object"
    (fun e => match processEntity with
              | Some f => f e
              | None => ([], ProcReturn e)
              end).

Definition harnessProcessors
  (processEntity : option (Entity -> list Emitted * ProcOutcome)) : list Processor :=
  [harnessProcessor processEntity].

(** [setInputEntities]: a full mutation from the provider named [test]. *)
Definition setInputEntities (es : list (Entity * option string)) (st : Store) : Store :=
  applyFullMutation "test" es st.

(** 'should add entities and update errors' *)
Definition errorProcessEntity (triggerError : bool) (e : Entity)
  : list Emitted * ProcOutcome :=
  if triggerError then ([], ProcThrow (mkError "Error" "NOPE" None))
  else ([], ProcReturn e).


(** 'leaves behind orphaned cycles without orphan markers' *)
Definition cycleProcessEntity (e : Entity) : list Emitted * ProcOutcome :=
  if spec_noEmit e then ([], ProcReturn e) else
  let n := metadata_name e in
  let out := if bool_decide (n = "a") then [EmitEntity (mkComponent "b" false)]
             else if bool_decide (n = "b") then [EmitEntity (mkComponent "c" false)]
             else if bool_decide (n = "c") then [EmitEntity (mkComponent "d" false)]
             else if bool_decide (n = "d") then [EmitEntity (mkComponent "b" false)]
             else [] in
  (out, ProcReturn e).

(* ------------------------------------------------------------------ *)
(** ** [WaitingProgressTracker] of the test harness *)

(** The fields of a [RefreshStateItem] that the tracker reads. *)
Record TrackedItem := mkTrackedItem {
  ti_id : string;
  ti_entityRef : string
}.

(** [#counts] (by item id), [#errors] (by entity ref, the error's message),
    the optional [entityRefs] filter, and the value [#promise] resolved to
    (None while pending). The [#inFlight] promises only serve
    [waitForFinish] and are not modelled. *)
Record Tracker := mkTracker {
  tr_entityRefs : option (list string);
  tr_counts : gmap string nat;
  tr_errors : gmap string string;
  tr_resolved : option (gmap string string)
}.

Definition newTracker (entityRefs : option (list string)) : Tracker :=
  mkTracker entityRefs ∅ ∅ None.

(** The tracking object returned by [processStart]: the shared
    [NoopProgressTracker.emptyTracking], or closures over [item] and
    [currentCount]. *)
Inductive Tracking :=
  | NoopTracking
  | WaitingTracking (id entityRef : string) (currentCount : nat).

Inductive Mark :=
  | MarkFailed (err : string)
  | MarkProcessorsCompleted
  | MarkSuccessfulWithChanges
  | MarkSuccessfulWithErrors
  | MarkSuccessfulWithNoChanges.

Definition setCounts (tr : Tracker) (c : gmap string nat) : Tracker :=
  mkTracker (tr_entityRefs tr) c (tr_errors tr) (tr_resolved tr).

Definition setErrors (tr : Tracker) (e : gmap string string) : Tracker :=
  mkTracker (tr_entityRefs tr) (tr_counts tr) e (tr_resolved tr).

(** [this.#resolve(...)]: a promise resolves at most once. *)
Definition resolvePromise (tr : Tracker) (v : gmap string string) : Tracker :=
  mkTracker (tr_entityRefs tr) (tr_counts tr) (tr_errors tr)
    (match tr_resolved tr with Some r => Some r | None => Some v end).

Definition isTrackedRef (tr : Tracker) (r : string) : bool :=
  match tr_entityRefs tr with
  | Some refs => bool_decide (r ∈ refs)
  | None => true
  end.

Definition processStart (tr : Tracker) (item : TrackedItem) : Tracker * Tracking :=
  if isTrackedRef tr (ti_entityRef item) then
    let currentCount := default 0 (tr_counts tr !! ti_id item) in
    (setCounts tr (<[ti_id item := currentCount]> (tr_counts tr)),
     WaitingTracking (ti_id item) (ti_entityRef item) currentCount)
  else (tr, NoopTracking).

(** [onDone]: store [currentCount + 1], then resolve with the current errors
    when every count is at least two. *)
Definition onDone (tr : Tracker) (id : string) (currentCount : nat) : Tracker :=
  let tr' := setCounts tr (<[id := S currentCount]> (tr_counts tr)) in
  if forallb (fun p : string * nat => 2 <=? p.2)%nat (map_to_list (tr_counts tr'))
  then resolvePromise tr' (tr_errors tr')
  else tr'.

Definition mark (tr : Tracker) (h : Tracking) (m : Mark) : Tracker :=
  match h with
  | NoopTracking => tr
  | WaitingTracking id r c =>
      match m with
      | MarkFailed e => onDone (setErrors tr (<[r := e]> (tr_errors tr))) id c
      | MarkProcessorsCompleted => tr
      | MarkSuccessfulWithChanges =>
          setCounts (setErrors tr (delete r (tr_errors tr)))
            (<[id := 0]> (tr_counts tr))
      | MarkSuccessfulWithErrors =>
          onDone (setErrors tr (delete r (tr_errors tr))) id c
      | MarkSuccessfulWithNoChanges => onDone tr id c
      end
  end.

Inductive TrackerEvent :=
  | EvStart (item : TrackedItem)
  | EvMark (handle : nat) (m : Mark).

(** Drive a tracker: [EvStart] calls [processStart] and keeps the returned
    tracking object; [EvMark i m] calls [m] on the [i]-th one. *)
Fixpoint runTracker (tr : Tracker) (hs : list Tracking) (evs : list TrackerEvent)
  : Tracker :=
  match evs with
  | [] => tr
  | EvStart it :: evs' =>
      let '(tr', h) := processStart tr it in runTracker tr' (app hs [h]) evs'
  | EvMark i m :: evs' =>
      match hs !! i with
      | Some h => runTracker (mark tr h m) hs evs'
      | None => runTracker tr hs evs'
      end
  end.

(** Reading a run of the tracker. *)

(** The callbacks that count a pass (those that call [onDone]). *)
Definition countedMark (m : Mark) : bool :=
  match m with
  | MarkFailed _ | MarkSuccessfulWithErrors | MarkSuccessfulWithNoChanges => true
  | MarkProcessorsCompleted | MarkSuccessfulWithChanges => false
  end.

(** The entity reference a tracking object reports errors under. *)
Definition trackingRef (h : Tracking) : option string :=
  match h with NoopTracking => None | WaitingTracking _ r _ => Some r end.

(** [entityRefs] as a filter on references. *)
Definition refTracked (refs : option (list string)) (r : string) : bool :=
  match refs with Some l => bool_decide (r ∈ l) | None => true end.

(** The error recorded for [r] as the callbacks describe it: the error of
    the last [markFailed] on a tracking object of [r], unless a later
    with-changes or with-errors callback of [r] cleared it; a no-change
    callback leaves it.  [rs] lists the reference of each tracking object
    handed out so far ([None] for the no-op one). *)
Fixpoint lastFailure (refs : option (list string)) (rs : list (option string))
  (evs : list TrackerEvent) (r : string) (cur : option string) : option string :=
  match evs with
  | [] => cur
  | EvStart it :: evs' =>
      lastFailure refs
        (app rs [if refTracked refs (ti_entityRef it) then Some (ti_entityRef it) else None])
        evs' r cur
  | EvMark i m :: evs' =>
      let cur' :=
        match rs !! i with
        | Some (Some r') =>
            if bool_decide (r' = r) then
              match m with
              | MarkFailed e => Some e
              | MarkSuccessfulWithChanges | MarkSuccessfulWithErrors => None
              | _ => cur
              end
            else cur
        | _ => cur
        end in
      lastFailure refs rs evs' r cur'
  end.

(** Two refresh-state items and runs of the tracker over them. *)
Definition itemA : TrackedItem := mkTrackedItem "id-a" "component:default/a".
Definition itemB : TrackedItem := mkTrackedItem "id-b" "component:default/b".

(** Item [a] completes two passes before [b] is ever started. *)
Definition earlyResolveEvents : list TrackerEvent :=
  [EvStart itemA; EvMark 0 MarkSuccessfulWithNoChanges;
   EvStart itemA; EvMark 1 MarkSuccessfulWithNoChanges].

(** Both items complete two passes, interleaved; [b]'s first pass has changes. *)
Definition twoItemsEvents : list TrackerEvent :=
  [EvStart itemA; EvStart itemB; EvMark 1 MarkSuccessfulWithChanges;
   EvMark 0 MarkSuccessfulWithNoChanges; EvStart itemB; EvStart itemA;
   EvMark 2 MarkSuccessfulWithNoChanges; EvMark 3 (MarkFailed "boom");
   EvStart itemB; EvMark 4 MarkSuccessfulWithNoChanges].

(** A failed pass of [a] followed by a no-change pass of [a]. *)
Definition failedThenNoChangeEvents : list TrackerEvent :=
  [EvStart itemA; EvMark 0 (MarkFailed "boom");
   EvStart itemA; EvMark 1 MarkSuccessfulWithNoChanges].

(* ------------------------------------------------------------------ *)
(** ** [patch] (github-release-manager, patchRc side effects) *)

Definition dq : string := String (Ascii.ascii_of_nat 34) EmptyString.
Definition quoted (s : string) : string := dq +:+ s +:+ dq.

Record Project := mkProject { project_owner : string; project_repo : string }.

Record LatestRelease := mkLatestRelease {
  lr_targetCommitish : string;
  lr_tagName : string
}.

Record PatchCommit := mkPatchCommit {
  pc_sha : string;
  pc_htmlUrl : string;
  pc_commitMessage : string
}.

Record Branch := mkBranch {
  branch_name : string;
  branch_commitSha : string;     (* commit.sha *)
  branch_treeSha : string;       (* commit.commit.tree.sha *)
  branch_linksHtml : string      (* links.html *)
}.

Record GitCommit := mkGitCommit { commit_message : string; commit_sha : string }.

Record MergeResult := mkMergeResult {
  merge_commitMessage : string;  (* commit.message *)
  merge_treeSha : string;        (* commit.tree.sha *)
  merge_htmlUrl : string
}.

Record GitReference := mkGitReference { reference_ref : string; reference_sha : string }.

Record TagObject := mkTagObject { tagobj_tag : string; tagobj_sha : string }.

Record UpdatedRelease := mkUpdatedRelease {
  ur_name : string;
  ur_tagName : string;
  ur_htmlUrl : string
}.

Record ResponseStep := mkResponseStep {
  rsp_message : string;
  rsp_secondaryMessage : option string;
  rsp_link : option string
}.

Record SuccessArgs := mkSuccessArgs {
  sa_updatedReleaseUrl : string;
  sa_updatedReleaseName : string;
  sa_previousTag : string;
  sa_patchedTag : string;
  sa_patchCommitUrl : string;
  sa_patchCommitMessage : string
}.

(** [IPluginApiClient] as used by [patch]; [None] is a rejected request.
    The tag parts are passed through untouched and kept abstract as a
    string. *)
Record PluginApiClient := mkPluginApiClient {
  getBranch : string -> string -> string -> option Branch;
  createTempCommit : string -> string -> string -> PatchCommit -> string -> option GitCommit;
  forceBranchHeadToTempCommit : string -> string -> GitCommit -> string -> option unit;
  mergeApi : string -> string -> string -> string -> option MergeResult;
  createCherryPickCommit :
    string -> string -> string -> string -> string -> PatchCommit -> option GitCommit;
  replaceTempCommit : string -> string -> GitCommit -> string -> option GitReference;
  createTagObject : string -> string -> string -> GitReference -> option TagObject;
  createReference : string -> string -> string -> TagObject -> option GitReference;
  updateRelease :
    string -> string -> string -> LatestRelease -> PatchCommit -> string -> option UpdatedRelease
}.

Inductive ApiRequest :=
  | ReqGetBranch | ReqCreateTempCommit | ReqForceBranchHead | ReqMerge
  | ReqCreateCherryPickCommit | ReqReplaceTempCommit | ReqCreateTagObject
  | ReqCreateReference | ReqUpdateRelease.

Global Instance ApiRequest_eq_dec : EqDecision ApiRequest.
Proof. solve_decision. Defined.

(** Observable events of a run: requests issued (with whether they
    resolved), entries pushed on [responseSteps], and the call of
    [successCb]. *)
Inductive PatchEvent :=
  | EvRequest (q : ApiRequest) (resolved : bool)
  | EvPushStep (s : ResponseStep)
  | EvSuccessCb (a : SuccessArgs).

(** An async computation over the run's events and the local
    [responseSteps] array; [None] is a rejected promise. *)
Definition PatchM (A : Type) : Type :=
  list PatchEvent * list ResponseStep -> option A * (list PatchEvent * list ResponseStep).

Global Instance PatchM_ret : MRet PatchM := fun A x s => (Some x, s).
Global Instance PatchM_bind : MBind PatchM := fun A B f m s =>
  match m s with
  | (Some x, s') => f x s'
  | (None, s') => (None, s')
  end.

Definition request {A} (q : ApiRequest) (r : option A) : PatchM A :=
  fun '(t, steps) => (r, (app t [EvRequest q (if r then true else false)], steps)).

(** [responseSteps.push(s)]; the push is also recorded among the events. *)
Definition pushStep (s : ResponseStep) : PatchM unit :=
  fun '(t, steps) => (Some (), (app t [EvPushStep s], app steps [s])).

Definition getResponseSteps : PatchM (list ResponseStep) :=
  fun '(t, steps) => (Some steps, (t, steps)).

(** [await successCb?.(args)]. *)
Definition callSuccessCb (cb : option (SuccessArgs -> option unit)) (a : SuccessArgs)
  : PatchM unit :=
  match cb with
  | None => mret ()
  | Some f => fun '(t, steps) => (f a, (app t [EvSuccessCb a], steps))
  end.

(** The entries pushed, read off the events, in order. *)
Definition pushedSteps (t : list PatchEvent) : list ResponseStep :=
  omap (fun ev => match ev with EvPushStep s => Some s | _ => None end) t.

Definition patch (bumpedTag : string) (latestRelease : LatestRelease)
  (client : PluginApiClient) (project : Project)
  (selectedPatchCommit : PatchCommit)
  (successCb : option (SuccessArgs -> option unit)) (tagParts : string)
  : PatchM (list ResponseStep) :=
  let owner := project_owner project in
  let repo := project_repo project in
  let releaseBranchName := lr_targetCommitish latestRelease in
  releaseBranch ← request ReqGetBranch (getBranch client owner repo releaseBranchName);
  let releaseBranchSha := branch_commitSha releaseBranch in
  let releaseBranchTree := branch_treeSha releaseBranch in
  pushStep (mkResponseStep ("Fetched release branch " +:+ quoted (branch_name releaseBranch))
              None (Some (branch_linksHtml releaseBranch)));;
  tempCommit ← request ReqCreateTempCommit
    (createTempCommit client owner repo releaseBranchTree selectedPatchCommit tagParts);
  pushStep (mkResponseStep "Created temporary commit"
              (Some ("with message " +:+ quoted (commit_message tempCommit))) None);;
  request ReqForceBranchHead
    (forceBranchHeadToTempCommit client owner repo tempCommit releaseBranchName);;
  merge ← request ReqMerge (mergeApi client owner repo releaseBranchName (pc_sha selectedPatchCommit));
  pushStep (mkResponseStep ("Merged temporary commit into " +:+ quoted releaseBranchName)
              (Some ("with message " +:+ quoted (merge_commitMessage merge)))
              (Some (merge_htmlUrl merge)));;
  let mergeTree := merge_treeSha merge in
  cherryPickCommit ← request ReqCreateCherryPickCommit
    (createCherryPickCommit client owner repo bumpedTag mergeTree releaseBranchSha selectedPatchCommit);
  pushStep (mkResponseStep ("Cherry-picked patch commit to " +:+ quoted releaseBranchSha)
              (Some ("with message " +:+ quoted (commit_message cherryPickCommit))) None);;
  updatedReference ← request ReqReplaceTempCommit
    (replaceTempCommit client owner repo cherryPickCommit releaseBranchName);
  pushStep (mkResponseStep ("Updated reference " +:+ quoted (reference_ref updatedReference))
              None None);;
  createdTagObject ← request ReqCreateTagObject
    (createTagObject client owner repo bumpedTag updatedReference);
  pushStep (mkResponseStep "Created new tag object"
              (Some ("with name " +:+ quoted (tagobj_tag createdTagObject))) None);;
  reference ← request ReqCreateReference
    (createReference client owner repo bumpedTag createdTagObject);
  pushStep (mkResponseStep ("Created new reference " +:+ quoted (reference_ref reference))
              (Some ("for tag object " +:+ quoted (tagobj_tag createdTagObject))) None);;
  updatedRelease ← request ReqUpdateRelease
    (updateRelease client owner repo bumpedTag latestRelease selectedPatchCommit tagParts);
  pushStep (mkResponseStep ("Updated release " +:+ quoted (ur_name updatedRelease))
              (Some ("with tag " +:+ ur_tagName updatedRelease))
              (Some (ur_htmlUrl updatedRelease)));;
  callSuccessCb successCb
    (mkSuccessArgs (ur_htmlUrl updatedRelease) (ur_name updatedRelease)
       (lr_tagName latestRelease) (ur_tagName updatedRelease)
       (pc_htmlUrl selectedPatchCommit) (pc_commitMessage selectedPatchCommit));;
  getResponseSteps.

(** Run [patch] from the start: no events yet, an empty [responseSteps]. *)
Definition runPatch (bumpedTag : string) (latestRelease : LatestRelease)
  (client : PluginApiClient) (project : Project)
  (selectedPatchCommit : PatchCommit)
  (successCb : option (SuccessArgs -> option unit)) (tagParts : string)
  : option (list ResponseStep) * list PatchEvent :=
  let '(r, (t, _)) :=
    patch bumpedTag latestRelease client project selectedPatchCommit successCb tagParts
      ([], []) in
  (r, t).

(** Every request of the client resolves. *)
Definition clientSucceeds (client : PluginApiClient) : Prop :=
  (forall o r b, is_Some (getBranch client o r b)) /\
  (forall o r t c p, is_Some (createTempCommit client o r t c p)) /\
  (forall o r c b, is_Some (forceBranchHeadToTempCommit client o r c b)) /\
  (forall o r b h, is_Some (mergeApi client o r b h)) /\
  (forall o r t m s c, is_Some (createCherryPickCommit client o r t m s c)) /\
  (forall o r c b, is_Some (replaceTempCommit client o r c b)) /\
  (forall o r t u, is_Some (createTagObject client o r t u)) /\
  (forall o r t c, is_Some (createReference client o r t c)) /\
  (forall o r t l c p, is_Some (updateRelease client o r t l c p)).

(** The kind of an event, forgetting its payload. *)
Inductive EventKind := KRequest (q : ApiRequest) | KPush | KSuccessCb.

Definition eventKind (ev : PatchEvent) : EventKind :=
  match ev with
  | EvRequest q _ => KRequest q
  | EvPushStep _ => KPush
  | EvSuccessCb _ => KSuccessCb
  end.

(** The order the description gives: each request, the step it records
    (none for forcing the branch head), and finally [successCb] when one is
    given. *)
Definition expectedKinds (hasSuccessCb : bool) : list EventKind :=
  app [KRequest ReqGetBranch; KPush; KRequest ReqCreateTempCommit; KPush;
       KRequest ReqForceBranchHead; KRequest ReqMerge; KPush;
       KRequest ReqCreateCherryPickCommit; KPush; KRequest ReqReplaceTempCommit; KPush;
       KRequest ReqCreateTagObject; KPush; KRequest ReqCreateReference; KPush;
       KRequest ReqUpdateRelease; KPush]
      (if hasSuccessCb then [KSuccessCb] else []).

(** A GitHub client whose requests all succeed. *)
Definition okClient : PluginApiClient :=
  mkPluginApiClient
    (fun _ _ b => Some (mkBranch b "branch-sha" "branch-tree" "https://github.com/o/r/tree/rc"))
    (fun _ _ _ _ _ => Some (mkGitCommit "temp" "temp-sha"))
    (fun _ _ _ _ => Some ())
    (fun _ _ _ _ => Some (mkMergeResult "merge" "merge-tree" "https://github.com/o/r/commit/m"))
    (fun _ _ _ _ _ _ => Some (mkGitCommit "cherry" "cherry-sha"))
    (fun _ _ _ b => Some (mkGitReference ("refs/heads/" +:+ b) "cherry-sha"))
    (fun _ _ t _ => Some (mkTagObject t "tag-sha"))
    (fun _ _ t _ => Some (mkGitReference ("refs/tags/" +:+ t) "tag-sha"))
    (fun _ _ t _ _ _ => Some (mkUpdatedRelease "Version 1.2.1" t "https://github.com/o/r/releases/1")).

(** The arguments of a concrete run. *)
Definition patchRelease : LatestRelease := mkLatestRelease "rc/1.2.0" "rc-1.2.0".
Definition patchProject : Project := mkProject "o" "r".
Definition patchCommit : PatchCommit := mkPatchCommit "fix-sha" "https://github.com/o/r/commit/fix" "fix".

(* ------------------------------------------------------------------ *)
(** ** Reading tracker runs further *)

Global Instance Mark_eq_dec : EqDecision Mark.
Proof. solve_decision. Defined.

(** A callback event that counts a pass. *)
Definition countedEvent (ev : TrackerEvent) : bool :=
  match ev with EvMark _ m => countedMark m | EvStart _ => false end.

(** Bound on the counts after [k] counted callbacks: every count and every
    [currentCount] captured by a tracking object is at most [k], and the
    promise can only have resolved once [k] is at least two. *)
Definition countInv (k : nat) (tr : Tracker) (hs : list Tracking) : Prop :=
  (forall id n, tr_counts tr !! id = Some n -> (n <= k)%nat) /\
  (forall id r c, WaitingTracking id r c ∈ hs -> (c <= k)%nat) /\
  (is_Some (tr_resolved tr) -> (2 <= k)%nat).

(** [#inFlight] and the [resolve] closures over its promises.  [slots]
    holds, for the [i]-th tracking object handed out, the index of the
    promise it pushed onto [#inFlight] ([None] for [emptyTracking], which
    pushes nothing); [inFlight] holds whether each promise has resolved.
    Every callback but [markProcessorsCompleted] calls [resolve()]. *)
Fixpoint inFlightRun (refs : option (list string)) (slots : list (option nat))
  (inFlight : list bool) (evs : list TrackerEvent) : list (option nat) * list bool :=
  match evs with
  | [] => (slots, inFlight)
  | EvStart it :: evs' =>
      if refTracked refs (ti_entityRef it)
      then inFlightRun refs (app slots [Some (length inFlight)]) (app inFlight [false]) evs'
      else inFlightRun refs (app slots [None]) inFlight evs'
  | EvMark i m :: evs' =>
      match slots !! i, m with
      | Some (Some _), MarkProcessorsCompleted => inFlightRun refs slots inFlight evs'
      | Some (Some j), _ => inFlightRun refs slots (<[j := true]> inFlight) evs'
      | _, _ => inFlightRun refs slots inFlight evs'
      end
  end.

(** [await Promise.all(this.#inFlight.slice())] called after the events
    [before]: it waits for the promises in [#inFlight] at that moment, and
    has resolved once they all have, by the end of [after]. *)
Definition waitForFinishResolved (refs : option (list string))
  (before after : list TrackerEvent) : bool :=
  let n := length (inFlightRun refs [] [] before).2 in
  forallb (fun b : bool => b) (take n (inFlightRun refs [] [] (app before after)).2).

(** Callbacks are only called on tracking objects already handed out. *)
Fixpoint marksAfterStarts (n : nat) (evs : list TrackerEvent) : bool :=
  match evs with
  | [] => true
  | EvStart _ :: evs' => marksAfterStarts (S n) evs'
  | EvMark i _ :: evs' => (i <? n)%nat && marksAfterStarts n evs'
  end.

(** The items passed to [processStart], in order. *)
Definition startedItems (evs : list TrackerEvent) : list TrackedItem :=
  omap (fun ev => match ev with EvStart it => Some it | EvMark _ _ => None end) evs.

Definition slotsInv (sl : list (option nat)) (fl : list bool) : Prop :=
  (forall s j, sl !! s = Some (Some j) -> (j < length fl)%nat) /\
  (forall s s' j, sl !! s = Some (Some j) -> sl !! s' = Some (Some j) -> s = s') /\
  (forall j, (j < length fl)%nat -> exists s, sl !! s = Some (Some j)).

(** Runs used as examples. *)
Definition untrackedEvents : list TrackerEvent :=
  [EvStart itemB; EvMark 0 (MarkFailed "boom"); EvMark 0 MarkSuccessfulWithNoChanges].

(** [b] is not tracked; [a] is restarted after [waitForFinish] was called. *)
Definition finishBefore : list TrackerEvent := [EvStart itemA; EvStart itemB].
Definition finishAfter : list TrackerEvent :=
  [EvMark 0 MarkProcessorsCompleted; EvStart itemA; EvMark 0 MarkSuccessfulWithNoChanges].

(* ------------------------------------------------------------------ *)
(** ** [TestHarness.getOutputEntities] *)

(** [Object.fromEntries(entities.map(e => [stringifyEntityRef(e), e]))]:
    entries are added in order, a later one replacing an earlier one with
    the same key. *)
Definition getOutputEntities (entities : list Entity) : gmap string Entity :=
  foldl (fun (m : gmap string Entity) e => <[stringifyEntityRef e := e]> m) ∅ entities.

(* ------------------------------------------------------------------ *)
(** ** [PromoteRcBody]: the release version shown and promoted *)

(** The rest of [s] after the prefix [p], if [s] starts with [p]. *)
Fixpoint stripPrefix (p s : string) : option string :=
  match p, s with
  | EmptyString, _ => Some s
  | String c p', String d s' => if Ascii.ascii_dec c d then stripPrefix p' s' else None
  | String _ _, EmptyString => None
  end.

(** [s.replace(pattern, replacement)] with a string pattern: only the first
    occurrence is replaced (the replacement holds no [$] pattern). *)
Fixpoint replaceFirst (pattern replacement s : string) : string :=
  match stripPrefix pattern s with
  | Some rest => replacement +:+ rest
  | None =>
      match s with
      | EmptyString => EmptyString
      | String c s' => String c (replaceFirst pattern replacement s')
      end
  end.

(** [rcRelease.tagName.replace('rc-', 'version-')]. *)
Definition releaseVersion (tagName : string) : string :=
  replaceFirst "rc-" "version-" tagName.

(** Whether [p] occurs in [s]. *)
Fixpoint containsStr (p s : string) : bool :=
  match stripPrefix p s with
  | Some _ => true
  | None => match s with EmptyString => false | String _ s' => containsStr p s' end
  end.

(* ------------------------------------------------------------------ *)
(** ** Reading runs of [patch] further *)

(** The arguments [successCb] gets in the run with [okClient]. *)
Definition okSuccessArgs : SuccessArgs :=
  mkSuccessArgs "https://github.com/o/r/releases/1" "Version 1.2.1" "rc-1.2.0" "1.2.1"
    "https://github.com/o/r/commit/fix" "fix".

(* ------------------------------------------------------------------ *)
(** ** Scenario data *)

Definition testRef : string := "component:default/test".


(** 'should add entities and update errors'. *)
Definition errorStart : Store :=
  setInputEntities [(mkComponent "test" false, None)] emptyStore.
Definition errorProcs (triggerError : bool) : list Processor :=
  harnessProcessors (Some (errorProcessEntity triggerError)).

Definition nopeStatusItem : StatusItem :=
  mkStatusItem "error" "backstage.io/catalog-processing"
    "InputError: Processor Object threw an error while preprocessing; caused by Error: NOPE"
    (mkError "InputError"
       "Processor Object threw an error while preprocessing; caused by Error: NOPE"
       (Some ("Error", "NOPE"))).

Definition expectedTest (status : list StatusItem) : Materialized :=
  mkMaterialized (mkComponent "test" false) [] status.


(** 'leaves behind orphaned cycles without orphan markers': [a] emits [b],
    [b] emits [c], [c] emits [d], [d] emits [b]; later the provider re-sends
    [a] with [spec.noEmit]. *)
Definition cycleProcs : list Processor := harnessProcessors (Some cycleProcessEntity).
Definition cycleStart : Store :=
  setInputEntities [(mkComponent "a" false, None)] emptyStore.
Definition cycleAfterRootStops : Store :=
  setInputEntities [(mkComponent "a" true, None)] (passes 5 cycleProcs cycleStart).
Definition cycleRefs : list string :=
  ["component:default/b"; "component:default/c"; "component:default/d"].
Definition cyclePred (x : string) : string :=
  if bool_decide (x = "component:default/b") then "component:default/d"
  else if bool_decide (x = "component:default/c") then "component:default/b"
  else "component:default/c".
Definition cycleAllowed : list Entity :=
  [mkComponent "b" false; mkComponent "c" false; mkComponent "d" false].

(** Does a successful result emit an entity with reference [x]? *)
Definition emitsRef (res : OrchResult) (x : string) : bool :=
  match res with
  | OrchOk _ ch _ => existsb (fun c => bool_decide (stringifyEntityRef c = x)) ch
  | OrchErr _ => false
  end.

(** An emission cycle [C] at location [L]: every admissible entity
    ([Allowed]) is located at [L]; each member [x] has an emitter [pred x]
    in [C], and every admissible entity of that emitter is processed
    successfully and emits an entity with reference [x]. *)
Definition cycleClosedb (ps : list Processor) (C : list string)
  (pred : string -> string) (Allowed : list Entity) (L : string) : bool :=
  forallb (fun e => bool_decide (entityLocationKey e = Some L)) Allowed &&
  forallb (fun x =>
      bool_decide (pred x ∈ C) &&
      forallb (fun e => negb (bool_decide (stringifyEntityRef e = pred x)) ||
                        emitsRef (orchestrate ps e) x) Allowed) C.

(** The store facts a cycle member keeps: an admissible input under its own
    reference with the cycle's location key [L], a processed entity, and the
    claim of its emitter. *)
Definition cycleMemberb (Allowed : list Entity) (pred : string -> string) (L : string)
  (st : Store) (x : string) : bool :=
  match inputs st !! x, results st !! x, parentRefs st !! pred x with
  | Some inp, Some rs, Some l =>
      bool_decide (unprocessedEntity inp ∈ Allowed) &&
      bool_decide (stringifyEntityRef (unprocessedEntity inp) = x) &&
      bool_decide (locationKey inp = Some L) &&
      bool_decide (is_Some (processedEntity rs)) &&
      bool_decide (x ∈ l)
  | _, _, _ => false
  end.

Definition cycleInvb (C : list string) (pred : string -> string)
  (Allowed : list Entity) (L : string) (st : Store) : bool :=
  forallb (cycleMemberb Allowed pred L st) C.

Definition inputOk (Allowed : list Entity) (L : string) (x : string) (oi : option Input)
  : Prop :=
  exists inp, oi = Some inp /\ unprocessedEntity inp ∈ Allowed /\
    stringifyEntityRef (unprocessedEntity inp) = x /\ locationKey inp = Some L.

Definition cycleMember (Allowed : list Entity) (pred : string -> string) (L : string)
  (st : Store) (x : string) : Prop :=
  inputOk Allowed L x (inputs st !! x) /\
  (exists rs, results st !! x = Some rs /\ is_Some (processedEntity rs)) /\
  (exists l, parentRefs st !! pred x = Some l /\ x ∈ l).

(* ------------------------------------------------------------------ *)
(** ** Per-reference view of provider mutations *)









(** A store in which [component:default/b] was provided with key [loc]. *)
Definition conflictStore : Store :=
  setInputEntities [(mkComponent "b" false, Some "loc")] emptyStore.

(* ------------------------------------------------------------------ *)
(** ** General lemmas on the model *)

Lemma passes_add (n m : nat) ps st :
  passes (n + m) ps st = passes m ps (passes n ps st).
Proof. revert st; induction n as [|n IH]; intros st; simpl; auto. Qed.

Lemma passes_fixpoint (n : nat) ps st : pass ps st = st -> passes n ps st = st.
Proof. intros H; induction n as [|n IH]; simpl; [done|]. by rewrite H. Qed.

Lemma passes_from (n k : nat) ps st st' :
  k <= n -> passes k ps st = st' -> pass ps st' = st' -> passes n ps st = st'.
Proof.
  intros Hk Hst Hfix. replace n with (k + (n - k)) by lia.
  rewrite passes_add, Hst. by apply passes_fixpoint.
Qed.

Lemma stitchEntity_setFinals st f r :
  stitchEntity (setFinals st f) r = stitchEntity st r.
Proof. destruct st; reflexivity. Qed.


Lemma finals_stitchAll st r :
  finals (stitchAll st) !! r = inputs st !! r ≫= (fun _ => stitchEntity st r).
Proof. unfold stitchAll; simpl. by rewrite map_lookup_imap. Qed.

Lemma isOrphanMarked_withOrphanMarker b e rels status :
  isOrphanMarked (mkMaterialized (withOrphanMarker b e) rels status) = b.
Proof.
  unfold isOrphanMarked; simpl. rewrite existsb_app.
  assert (Hf : existsb (fun kv : string * string => bool_decide (kv.1 = orphanAnnotation))
     (filter (fun kv : string * string => kv.1 <> orphanAnnotation)
        (metadata_annotations e)) = false).
  { induction (metadata_annotations e) as [|[k v] l IH]; simpl; [done|].
    rewrite filter_cons. case_decide as Hk; simpl; [|done].
    rewrite bool_decide_false by done. done. }
  rewrite Hf. destruct b; reflexivity.
Qed.


(** A batch of upserts in which no entry for [R] carries [R]'s non-null key
    leaves [R]'s input as it was and never accepts [R]. *)
Lemma upsertAll_conflict es ins R inp L1 :
  ins !! R = Some inp -> locationKey inp = Some L1 ->
  (forall e k, In (e, k) es -> stringifyEntityRef e = R -> k <> Some L1) ->
  (upsertAll ins es).1 !! R = Some inp /\ R ∉ (upsertAll ins es).2.
Proof.
  revert ins. induction es as [|[e k] es IH]; intros ins Hin Hkey Hes; simpl.
  - split; [done|]. apply not_elem_of_nil.
  - unfold upsertItem.
    destruct (decide (stringifyEntityRef e = R)) as [<-|Hne].
    + rewrite Hin, Hkey. simpl.
      rewrite bool_decide_false by (apply (Hes e k); simpl; auto).
      simpl. apply IH; auto. intros e' k' Hi. apply Hes; simpl; auto.
    + assert (Hrest : forall e' k', In (e', k') es -> stringifyEntityRef e' = R -> k' <> Some L1)
        by (intros e' k' Hi; apply Hes; simpl; auto).
      assert (Hacc : forall ins', ins' = <[stringifyEntityRef e := mkInput e k]> ins ->
        (let '(ins'', acc) := upsertAll ins' es in (ins'', stringifyEntityRef e :: acc)).1 !! R
          = Some inp /\
        R ∉ (let '(ins'', acc) := upsertAll ins' es in (ins'', stringifyEntityRef e :: acc)).2).
      { intros ins' ->.
        destruct (IH (<[stringifyEntityRef e := mkInput e k]> ins)) as [H1 H2];
          [by rewrite lookup_insert_ne|done|done|].
        destruct (upsertAll _ es) as [ins'' acc]; simpl in *.
        split; [done|]. rewrite elem_of_cons. intros [->|]; [done|]. by apply H2. }
      destruct (ins !! stringifyEntityRef e) as [i|].
      * destruct (conflicts (locationKey i) k); [by apply IH|]. by apply Hacc.
      * by apply Hacc.
Qed.


(** One attempt without store failures. *)
Lemma runAttempt_noFault ps z inp st :
  (runAttempt noFault ps z inp st).1 =
  match orchestrate ps (unprocessedEntity inp) with
  | OrchErr errs => stitchAll (writeErrors z errs st)
  | res =>
      if bool_decide (resultHash (resultOf st z) = Some res) then st
      else stitchAll (writeResult z (entityLocationKey (unprocessedEntity inp)) res st)
  end.
Proof.
  unfold runAttempt, processItem, catchE, processBody.
  cbv [mbind mret Eng_bind Eng_ret getStore track storeOp noFault].
  destruct (orchestrate ps (unprocessedEntity inp)); [|done].
  case_bool_decide; done.
Qed.

Lemma hasIncoming_parent st p l x :
  parentRefs st !! p = Some l -> x ∈ l -> hasIncoming st x = true.
Proof.
  intros Hp Hx. unfold hasIncoming. apply orb_true_iff. right.
  apply existsb_exists. exists (p, l). split.
  - apply list_elem_of_In, elem_of_map_to_list, Hp.
  - by apply bool_decide_true.
Qed.

Lemma cycleInvb_sound C pred Allowed L st :
  cycleInvb C pred Allowed L st = true -> forall x, x ∈ C -> cycleMember Allowed pred L st x.
Proof.
  unfold cycleInvb. rewrite forallb_forall. intros H x Hx.
  specialize (H x (proj1 (list_elem_of_In _ _) Hx)). unfold cycleMemberb in H.
  destruct (inputs st !! x) as [inp|] eqn:Hi; [|done].
  destruct (results st !! x) as [rs|] eqn:Hr; [|done].
  destruct (parentRefs st !! pred x) as [l|] eqn:Hl; [|done].
  repeat rewrite andb_true_iff in H. repeat rewrite bool_decide_eq_true in H.
  destruct H as [[[[H1 H2] H3] H4] H5].
  split; [by exists inp|]. split; [by exists rs|]. by exists l.
Qed.

Lemma cycleClosedb_sound ps C pred Allowed L :
  cycleClosedb ps C pred Allowed L = true ->
  (forall e, e ∈ Allowed -> entityLocationKey e = Some L) /\
  forall x, x ∈ C -> pred x ∈ C /\
    forall e, e ∈ Allowed -> stringifyEntityRef e = pred x ->
    exists pe ch rels, orchestrate ps e = OrchOk pe ch rels /\
      exists c, c ∈ ch /\ stringifyEntityRef c = x.
Proof.
  unfold cycleClosedb. rewrite andb_true_iff, !forallb_forall. intros [HL H]. split.
  { intros e He. apply (bool_decide_eq_true_1 _), HL, list_elem_of_In, He. }
  intros x Hx.
  specialize (H x (proj1 (list_elem_of_In _ _) Hx)).
  apply andb_true_iff in H as [Hp He]. apply bool_decide_eq_true in Hp.
  split; [done|]. intros e Hae Hre. rewrite forallb_forall in He.
  specialize (He e (proj1 (list_elem_of_In _ _) Hae)).
  rewrite bool_decide_true in He by done. simpl in He.
  unfold emitsRef in He. destruct (orchestrate ps e) as [pe ch rels|]; [|done].
  exists pe, ch, rels. split; [done|].
  apply existsb_exists in He as [c [Hc Hcx]]. apply bool_decide_eq_true in Hcx.
  exists c. split; [by apply list_elem_of_In|done].
Qed.

Section Cycle.
Variable ps : list Processor.
Variable C : list string.
Variable pred : string -> string.
Variable Allowed : list Entity.
Variable L : string.
Hypothesis HL : forall e, e ∈ Allowed -> entityLocationKey e = Some L.
Hypothesis HC : forall x, x ∈ C -> pred x ∈ C /\
  forall e, e ∈ Allowed -> stringifyEntityRef e = pred x ->
  exists pe ch rels, orchestrate ps e = OrchOk pe ch rels /\
    exists c, c ∈ ch /\ stringifyEntityRef c = x.
Hypothesis Hemit : forall e pe ch rels c,
  orchestrate ps e = OrchOk pe ch rels -> c ∈ ch ->
  stringifyEntityRef c ∈ C -> c ∈ Allowed.

(** Children emitted under key [k] never break a member's input (an emission
    under another key is rejected), and under the cycle's key they are all
    accepted. *)
Lemma upsert_children ch pe rels ins k :
  (exists e, orchestrate ps e = OrchOk pe ch rels) ->
  (forall x, x ∈ C -> inputOk Allowed L x (ins !! x)) ->
  (forall x, x ∈ C -> inputOk Allowed L x
     ((upsertAll ins (map (fun c => (c, k)) ch)).1 !! x)) /\
  (k = Some L -> forall x, x ∈ C -> (exists c, c ∈ ch /\ stringifyEntityRef c = x) ->
     x ∈ (upsertAll ins (map (fun c => (c, k)) ch)).2).
Proof.
  intros [e0 Ho]. assert (Hsub : forall c, c ∈ ch -> stringifyEntityRef c ∈ C -> c ∈ Allowed)
    by (intros c; apply (Hemit e0 pe ch rels c Ho)).
  clear Ho. revert ins. induction ch as [|c ch IH]; intros ins Hins; simpl.
  { split; [done|]. intros _ x _ [c [Hc _]]. by apply not_elem_of_nil in Hc. }
  assert (Hsub' : forall c', c' ∈ ch -> stringifyEntityRef c' ∈ C -> c' ∈ Allowed)
    by (intros c' Hc'; apply Hsub; by apply list_elem_of_further).
  assert (Hacc : forall ins', (forall x, x ∈ C -> inputOk Allowed L x (ins' !! x)) ->
     (forall x, x ∈ C -> inputOk Allowed L x
       ((let '(ins'', acc) := upsertAll ins' (map (fun c0 => (c0, k)) ch) in
         (ins'', stringifyEntityRef c :: acc)).1 !! x)) /\
     (k = Some L -> forall x, x ∈ C -> (exists c0, c0 ∈ c :: ch /\ stringifyEntityRef c0 = x) ->
       x ∈ (let '(ins'', acc) := upsertAll ins' (map (fun c0 => (c0, k)) ch) in
            (ins'', stringifyEntityRef c :: acc)).2)).
  { intros ins' Hok'. destruct (IH Hsub' ins' Hok') as [H1 H2].
    destruct (upsertAll ins' _) as [ins'' acc]; simpl in *.
    split; [done|]. intros Hk x Hx [c0 [Hc0 Hc0x]].
    apply elem_of_cons in Hc0 as [->|Hc0].
    - subst x. apply list_elem_of_here.
    - apply list_elem_of_further, H2; [done|done|]. by exists c0. }
  unfold upsertItem.
  destruct (decide (stringifyEntityRef c ∈ C)) as [HcC|HcC].
  - destruct (Hins _ HcC) as [i [Hi [_ [_ Hk]]]]. rewrite Hi, Hk. simpl.
    destruct (decide (k = Some L)) as [->|HkL].
    + (* under the cycle's key the emission is accepted *)
      rewrite bool_decide_true by done. simpl.
      apply Hacc. intros x Hx. destruct (decide (x = stringifyEntityRef c)) as [->|Hne].
      * rewrite lookup_insert_eq. exists (mkInput c (Some L)). simpl.
        split; [done|]. split; [apply Hsub; [apply list_elem_of_here|done]|]. done.
      * rewrite lookup_insert_ne by done. by apply Hins.
    + (* under another key it is rejected *)
      rewrite bool_decide_false by done. simpl.
      destruct (IH Hsub' ins Hins) as [H1 _]. split; [done|]. intros Hk'; done.
  - assert (Hins' : forall x, x ∈ C ->
      inputOk Allowed L x (<[stringifyEntityRef c := mkInput c k]> ins !! x)).
    { intros x Hx. rewrite lookup_insert_ne by (intros Heq; subst x; done). by apply Hins. }
    assert (Hnot : forall x, x ∈ C -> (exists c0, c0 ∈ c :: ch /\ stringifyEntityRef c0 = x) ->
               exists c0, c0 ∈ ch /\ stringifyEntityRef c0 = x).
    { intros x Hx [c0 [Hc0 Hc0x]]. apply elem_of_cons in Hc0 as [->|Hc0]; [subst; done|].
      by exists c0. }
    destruct (ins !! stringifyEntityRef c) as [i|].
    + destruct (conflicts (locationKey i) k).
      * destruct (IH Hsub' ins Hins) as [H1 H2]. split; [done|].
        intros Hk x Hx Hex. apply H2; [done|done|]. by apply Hnot.
      * destruct (Hacc _ Hins') as [H1 H2].
        split; [done|]. intros Hk x Hx Hex. apply H2; [done|done|].
        destruct (Hnot x Hx Hex) as [c0 [? ?]]. exists c0. split; [by apply list_elem_of_further|done].
    + destruct (Hacc _ Hins') as [H1 H2].
      split; [done|]. intros Hk x Hx Hex. apply H2; [done|done|].
      destruct (Hnot x Hx Hex) as [c0 [? ?]]. exists c0. split; [by apply list_elem_of_further|done].
Qed.

Lemma cycleMember_stitchAll st x :
  cycleMember Allowed pred L (stitchAll st) x <-> cycleMember Allowed pred L st x.
Proof. destruct st; reflexivity. Qed.

Lemma processRef_cycle st z :
  (forall x, x ∈ C -> cycleMember Allowed pred L st x) ->
  forall x, x ∈ C -> cycleMember Allowed pred L (processRef ps st z) x.
Proof.
  intros Hinv. unfold processRef.
  destruct (inputs st !! z) as [inp|] eqn:Hz; [|done].
  rewrite runAttempt_noFault.
  destruct (orchestrate ps (unprocessedEntity inp)) as [pe ch rels|errs] eqn:Ho.
  - intros x Hx. cbv zeta. case_bool_decide; [by apply Hinv|]. apply cycleMember_stitchAll.
    unfold writeResult.
    destruct (upsert_children ch pe rels (inputs st) (entityLocationKey (unprocessedEntity inp)))
      as [U1 U2]; [by eexists|intros y Hy; apply (Hinv y Hy)|].
    destruct (upsertAll (inputs st) _) as [ins acc] eqn:Hu; simpl in *.
    destruct (Hinv x Hx) as [_ [[rs [Hrs Hp]] [l [Hl Hxl]]]].
    unfold cycleMember; simpl. split; [by apply U1|]. split.
    + destruct (decide (z = x)) as [->|Hne].
      * rewrite lookup_insert_eq. by eexists.
      * rewrite lookup_insert_ne by done. by exists rs.
    + destruct (decide (z = pred x)) as [Hzp|Hne].
      * rewrite <- Hzp, lookup_insert_eq. exists acc. split; [done|].
        destruct (HC x Hx) as [HpC Hem].
        destruct (Hinv (pred x) HpC) as [[inp' [Hi' [Ha' [Hr' _]]]] _].
        rewrite <- Hzp in Hi'. rewrite Hz in Hi'. injection Hi' as <-.
        apply U2; [by apply HL|done|].
        destruct (Hem (unprocessedEntity inp) Ha' Hr')
          as [pe' [ch' [rels' [Ho' Hc]]]].
        rewrite Ho in Ho'. injection Ho' as <- <- <-. done.
      * rewrite lookup_insert_ne by done. by exists l.
  - intros x Hx. apply cycleMember_stitchAll. unfold writeErrors, cycleMember; simpl.
    destruct (Hinv x Hx) as [Hi [[rs [Hrs Hp]] Hl]].
    split; [done|]. split; [|done].
    destruct (decide (z = x)) as [->|Hne].
    + rewrite lookup_insert_eq. eexists; split; [done|]. simpl.
      unfold resultOf. by rewrite Hrs.
    + rewrite lookup_insert_ne by done. by exists rs.
Qed.

Lemma pass_cycle st :
  (forall x, x ∈ C -> cycleMember Allowed pred L st x) ->
  forall x, x ∈ C -> cycleMember Allowed pred L (pass ps st) x.
Proof.
  intros Hinv. unfold pass. intros x Hx. apply cycleMember_stitchAll. revert x Hx.
  generalize (map fst (map_to_list (inputs st))) as keys.
  intros keys. revert st Hinv. induction keys as [|z keys IH]; intros st Hinv; simpl; [done|].
  apply IH. by apply processRef_cycle.
Qed.

Lemma passes_cycle n st :
  (forall x, x ∈ C -> cycleMember Allowed pred L st x) ->
  forall x, x ∈ C -> cycleMember Allowed pred L (passes n ps st) x.
Proof.
  revert st. induction n as [|n IH]; intros st Hinv; simpl; [done|].
  apply IH. by apply pass_cycle.
Qed.

Lemma pass_cycle_visible st :
  (forall x, x ∈ C -> cycleMember Allowed pred L st x) ->
  forall x, x ∈ C -> exists m,
    outputEntities (pass ps st) !! x = Some m /\ isOrphanMarked m = false.
Proof.
  intros Hinv x Hx.
  destruct (pass_cycle st Hinv x Hx) as [[inp [Hi _]] [[rs [Hrs [pe Hpe]]] [l [Hl Hxl]]]].
  unfold outputEntities, pass in *. rewrite finals_stitchAll.
  unfold stitchAll in Hi, Hrs, Hl. simpl in Hi, Hrs, Hl.
  rewrite Hi. simpl. unfold stitchEntity. rewrite Hrs, Hpe.
  eexists. split; [done|]. rewrite isOrphanMarked_withOrphanMarker.
  by rewrite (hasIncoming_parent _ _ _ _ Hl Hxl).
Qed.
End Cycle.

(** Every entity the cycle processor emits is one of [b], [c], [d]. *)
Lemma cycleProcs_emits e pe ch rels c :
  orchestrate cycleProcs e = OrchOk pe ch rels -> c ∈ ch -> c ∈ cycleAllowed.
Proof.
  unfold orchestrate, cycleProcs, harnessProcessors; simpl.
  unfold cycleProcessEntity.
  destruct (spec_noEmit e); simpl.
  { intros [= _ <- _] Hc. by apply not_elem_of_nil in Hc. }
  repeat case_bool_decide; simpl; intros [= _ <- _] Hc;
    repeat (apply elem_of_cons in Hc as [->|Hc]); try (by apply not_elem_of_nil in Hc);
    unfold cycleAllowed; repeat constructor.
Qed.

(* ------------------------------------------------------------------ *)
(** ** Repeated provider mutations *)

































(* ------------------------------------------------------------------ *)
(** ** The progress tracker *)

Lemma processStart_fields tr it :
  tr_entityRefs (processStart tr it).1 = tr_entityRefs tr /\
  tr_errors (processStart tr it).1 = tr_errors tr /\
  tr_resolved (processStart tr it).1 = tr_resolved tr /\
  (processStart tr it).2 =
    (if isTrackedRef tr (ti_entityRef it)
     then WaitingTracking (ti_id it) (ti_entityRef it) (default 0 (tr_counts tr !! ti_id it))
     else NoopTracking) /\
  (forall id, tr_counts (processStart tr it).1 !! id =
     if isTrackedRef tr (ti_entityRef it) && bool_decide (id = ti_id it)
     then Some (default 0 (tr_counts tr !! ti_id it)) else tr_counts tr !! id).
Proof.
  unfold processStart. destruct (isTrackedRef tr (ti_entityRef it)); simpl; [|done].
  repeat split. intros id. case_bool_decide as Hid.
  - subst id. by rewrite lookup_insert_eq.
  - by rewrite lookup_insert_ne.
Qed.

Lemma forallb_counts (m : gmap string nat) :
  forallb (fun p : string * nat => 2 <=? p.2)%nat (map_to_list m) = true ->
  forall id n, m !! id = Some n -> (2 <= n)%nat.
Proof.
  rewrite forallb_forall. intros H id n Hn.
  apply Nat.leb_le, (H (id, n)). by apply list_elem_of_In, elem_of_map_to_list.
Qed.

Lemma mark_entityRefs tr h m : tr_entityRefs (mark tr h m) = tr_entityRefs tr.
Proof.
  destruct h as [|id r c]; [done|].
  destruct m; unfold mark, onDone; simpl; try done; by destruct (forallb _ _).
Qed.

Lemma mark_resolved_stable tr h m w :
  tr_resolved tr = Some w -> tr_resolved (mark tr h m) = Some w.
Proof.
  intros Hw. destruct h as [|id r c]; [done|].
  destruct m; unfold mark, onDone; simpl; try done;
    destruct (forallb _ _); simpl; by rewrite Hw.
Qed.

Lemma onDone_resolves tr id c v :
  tr_resolved tr = None -> tr_resolved (onDone tr id c) = Some v ->
  v = tr_errors (onDone tr id c) /\
  forall id' n, tr_counts (onDone tr id c) !! id' = Some n -> (2 <= n)%nat.
Proof.
  intros H0. unfold onDone. destruct (forallb _ _) eqn:Hall; simpl; rewrite H0; [|done].
  intros [= <-]. split; [done|]. by apply forallb_counts.
Qed.

Lemma mark_resolves tr h m v :
  tr_resolved tr = None -> tr_resolved (mark tr h m) = Some v ->
  countedMark m = true /\ v = tr_errors (mark tr h m) /\
  forall id n, tr_counts (mark tr h m) !! id = Some n -> (2 <= n)%nat.
Proof.
  intros H0. destruct h as [|id r c]; [simpl; congruence|].
  destruct m; simpl; try congruence; intros Hv; split; try done;
    (apply onDone_resolves; [done|done]).
Qed.

Lemma runTracker_resolved_stable tr hs evs w :
  tr_resolved tr = Some w -> tr_resolved (runTracker tr hs evs) = Some w.
Proof.
  revert tr hs. induction evs as [|[it|i m] evs IH]; intros tr hs Hw; simpl; [done| |].
  - pose proof (processStart_fields tr it) as (_ & _ & R & _).
    destruct (processStart tr it) as [tr' h]. apply IH. simpl in R. by rewrite R.
  - destruct (hs !! i); apply IH; [by apply mark_resolved_stable|done].
Qed.

(** The run splits at the callback that resolved the promise. *)
Lemma runTracker_resolution tr hs evs v :
  tr_resolved tr = None -> tr_resolved (runTracker tr hs evs) = Some v ->
  exists evs1 i m evs2, evs = app evs1 (EvMark i m :: evs2) /\ countedMark m = true /\
    tr_resolved (runTracker tr hs evs1) = None /\
    tr_resolved (runTracker tr hs (app evs1 [EvMark i m])) = Some v /\
    v = tr_errors (runTracker tr hs (app evs1 [EvMark i m])) /\
    forall id n, tr_counts (runTracker tr hs (app evs1 [EvMark i m])) !! id = Some n ->
      (2 <= n)%nat.
Proof.
  revert tr hs. induction evs as [|[it|i m] evs IH]; intros tr hs H0 Hv; simpl in Hv.
  - congruence.
  - pose proof (processStart_fields tr it) as (_ & _ & R & _).
    destruct (processStart tr it) as [tr' h] eqn:Hps. simpl in R.
    destruct (IH tr' (app hs [h])) as (evs1 & i & m & evs2 & -> & Hm & H1 & H2 & H3 & H4);
      [by rewrite R|done|].
    exists (EvStart it :: evs1), i, m, evs2. simpl. rewrite Hps. by repeat split.
  - destruct (hs !! i) as [h|] eqn:Hi.
    + destruct (tr_resolved (mark tr h m)) as [w|] eqn:Hw.
      * rewrite (runTracker_resolved_stable _ _ _ _ Hw) in Hv. injection Hv as ->.
        destruct (mark_resolves _ _ _ _ H0 Hw) as (Hm & Hv' & Hc).
        exists [], i, m, evs. simpl. rewrite Hi. by repeat split.
      * destruct (IH (mark tr h m) hs) as (evs1 & i' & m' & evs2 & -> & Hm & H1 & H2 & H3 & H4);
          [done|done|].
        exists (EvMark i m :: evs1), i', m', evs2. simpl. rewrite Hi. by repeat split.
    + destruct (IH tr hs) as (evs1 & i' & m' & evs2 & -> & Hm & H1 & H2 & H3 & H4);
        [done|done|].
      exists (EvMark i m :: evs1), i', m', evs2. simpl. rewrite Hi. by repeat split.
Qed.

Lemma mark_counts_some tr h m id :
  is_Some (tr_counts tr !! id) -> is_Some (tr_counts (mark tr h m) !! id).
Proof.
  intros Hs. destruct h as [|id' r c]; [done|].
  destruct m; unfold mark, onDone; simpl; try done;
    try (destruct (forallb _ _); simpl);
    (destruct (decide (id = id')) as [->|Hne];
     [by rewrite lookup_insert_eq|by rewrite lookup_insert_ne]).
Qed.

Lemma runTracker_counts_some tr hs evs id :
  is_Some (tr_counts tr !! id) -> is_Some (tr_counts (runTracker tr hs evs) !! id).
Proof.
  revert tr hs. induction evs as [|[it|i m] evs IH]; intros tr hs Hs; simpl; [done| |].
  - pose proof (processStart_fields tr it) as (_ & _ & _ & _ & C).
    destruct (processStart tr it) as [tr' h]. apply IH. simpl in C. rewrite C.
    destruct (_ && _) eqn:Hb; [|done]. apply andb_true_iff in Hb as [_ Hb].
    by eexists.
  - destruct (hs !! i); apply IH; [by apply mark_counts_some|done].
Qed.

Lemma runTracker_entityRefs tr hs evs :
  tr_entityRefs (runTracker tr hs evs) = tr_entityRefs tr.
Proof.
  revert tr hs. induction evs as [|[it|i m] evs IH]; intros tr hs; simpl; [done| |].
  - pose proof (processStart_fields tr it) as (E & _).
    destruct (processStart tr it) as [tr' h]. simpl in E. by rewrite IH.
  - destruct (hs !! i); rewrite IH; [apply mark_entityRefs|done].
Qed.

(** Every tracked item that has been started has a count. *)
Lemma runTracker_started tr hs evs it :
  EvStart it ∈ evs -> isTrackedRef tr (ti_entityRef it) = true ->
  is_Some (tr_counts (runTracker tr hs evs) !! ti_id it).
Proof.
  revert tr hs. induction evs as [|ev evs IH]; intros tr hs Hin Htr.
  { by apply not_elem_of_nil in Hin. }
  apply elem_of_cons in Hin as [Heq|Hin]; [subst ev|].
  - simpl. pose proof (processStart_fields tr it) as (_ & _ & _ & _ & C).
    destruct (processStart tr it) as [tr' h]. apply runTracker_counts_some.
    simpl in C. rewrite C, Htr, bool_decide_true by done. by eexists.
  - destruct ev as [it'|i m]; simpl.
    + pose proof (processStart_fields tr it') as (E & _).
      destruct (processStart tr it') as [tr' h]. apply IH; [done|].
      simpl in E. unfold isTrackedRef in *. by rewrite E.
    + destruct (hs !! i); apply IH; try done.
      unfold isTrackedRef in *. by rewrite mark_entityRefs.
Qed.

Lemma mark_errors tr h m r :
  tr_errors (mark tr h m) !! r =
  match trackingRef h with
  | Some r' =>
      if bool_decide (r' = r) then
        match m with
        | MarkFailed e => Some e
        | MarkSuccessfulWithChanges | MarkSuccessfulWithErrors => None
        | _ => tr_errors tr !! r
        end
      else tr_errors tr !! r
  | None => tr_errors tr !! r
  end.
Proof.
  destruct h as [|id r' c]; simpl; [done|].
  case_bool_decide as Hr.
  - subst r'. destruct m; unfold mark, onDone; simpl; try done;
      try (destruct (forallb _ _); simpl);
      first [done | by rewrite lookup_insert_eq | by rewrite lookup_delete_eq].
  - destruct m; unfold mark, onDone; simpl; try done;
      try (destruct (forallb _ _); simpl);
      first [done | by rewrite lookup_insert_ne | by rewrite lookup_delete_ne].
Qed.

Lemma runTracker_errors tr hs evs r :
  tr_errors (runTracker tr hs evs) !! r =
  lastFailure (tr_entityRefs tr) (map trackingRef hs) evs r (tr_errors tr !! r).
Proof.
  revert tr hs. induction evs as [|[it|i m] evs IH]; intros tr hs; simpl; [done| |].
  - pose proof (processStart_fields tr it) as (E & Er & _ & H & _).
    destruct (processStart tr it) as [tr' h]. simpl in E, Er, H.
    rewrite IH, E, Er, map_app, H. simpl.
    change (refTracked (tr_entityRefs tr) (ti_entityRef it)) with (isTrackedRef tr (ti_entityRef it)).
    by destruct (isTrackedRef tr (ti_entityRef it)).
  - rewrite list_lookup_fmap. destruct (hs !! i) as [h|]; simpl; rewrite IH.
    + rewrite mark_entityRefs, mark_errors. by destruct (trackingRef h).
    + done.
Qed.

Lemma mark_counts_other trx id r c m id' :
  id' <> id -> tr_counts (mark trx (WaitingTracking id r c) m) !! id' = tr_counts trx !! id'.
Proof.
  intros Hne. destruct m; unfold mark, onDone; simpl; try done;
    try (destruct (forallb _ _); simpl); by rewrite lookup_insert_ne.
Qed.

Lemma mark_errors_other trx id r c m r' :
  r' <> r -> tr_errors (mark trx (WaitingTracking id r c) m) !! r' = tr_errors trx !! r'.
Proof.
  intros Hne. rewrite mark_errors. simpl. by rewrite bool_decide_false.
Qed.

Lemma processStart_counts_other trx it id' :
  id' <> ti_id it -> tr_counts (processStart trx it).1 !! id' = tr_counts trx !! id'.
Proof.
  intros Hne. pose proof (processStart_fields trx it) as (_ & _ & _ & _ & C).
  rewrite C. by rewrite bool_decide_false, andb_false_r.
Qed.

(** Once resolved, the value stays whatever events follow. *)
Lemma runTracker_app_resolved tr hs evs evs' v :
  tr_resolved (runTracker tr hs evs) = Some v ->
  tr_resolved (runTracker tr hs (app evs evs')) = Some v.
Proof.
  revert tr hs. induction evs as [|[it|i m] evs IH]; intros tr hs Hv; simpl in *.
  - by apply runTracker_resolved_stable.
  - destruct (processStart tr it) as [tr' h]. by apply IH.
  - destruct (hs !! i); by apply IH.
Qed.

Lemma mark_counts_origin tr h m id :
  is_Some (tr_counts (mark tr h m) !! id) ->
  is_Some (tr_counts tr !! id) \/ exists r c, h = WaitingTracking id r c.
Proof.
  intros Hs. destruct h as [|id' r c]; [by left|].
  destruct (decide (id = id')) as [->|Hne]; [right; by eexists _, _|].
  left. by rewrite mark_counts_other in Hs.
Qed.

(** A count belongs to an id counted before the run, to a tracking object
    held before the run, or to a tracked item started during the run. *)
Lemma runTracker_counts_origin tr hs evs id :
  is_Some (tr_counts (runTracker tr hs evs) !! id) ->
  is_Some (tr_counts tr !! id) \/ (exists r c, WaitingTracking id r c ∈ hs) \/
  exists it, EvStart it ∈ evs /\ ti_id it = id /\ isTrackedRef tr (ti_entityRef it) = true.
Proof.
  revert tr hs. induction evs as [|[it|i m] evs IH]; intros tr hs Hs; simpl in Hs.
  - by left.
  - pose proof (processStart_fields tr it) as (E & _ & _ & H & C).
    destruct (processStart tr it) as [tr' h] eqn:Hps. simpl in E, H, C.
    assert (Hit : isTrackedRef tr (ti_entityRef it) = true -> ti_id it = id ->
      exists it', EvStart it' ∈ EvStart it :: evs /\ ti_id it' = id /\
        isTrackedRef tr (ti_entityRef it') = true).
    { intros Ht Hid. exists it. split; [apply list_elem_of_here|done]. }
    destruct (IH tr' (app hs [h]) Hs) as [Hc|[(r & c & Hh)|(it' & Hin & Hid & Ht)]].
    + rewrite C in Hc. destruct (isTrackedRef tr _ && bool_decide _) eqn:Hb.
      * apply andb_true_iff in Hb as [Ht Hb]. apply bool_decide_eq_true in Hb.
        right; right. by apply Hit.
      * by left.
    + apply elem_of_app in Hh as [Hh|Hh]; [right; left; by eexists _, _|].
      apply list_elem_of_singleton in Hh. rewrite H in Hh.
      destruct (isTrackedRef tr (ti_entityRef it)) eqn:Ht; [|done].
      injection Hh as Hid _ _. right; right. by apply Hit.
    + right; right. exists it'. split; [by apply list_elem_of_further|].
      split; [done|]. unfold isTrackedRef in *. by rewrite <- E.
  - destruct (hs !! i) as [h|] eqn:Hi.
    + destruct (IH (mark tr h m) hs Hs) as [Hc|[Hh|(it' & Hin & Hid & Ht)]].
      * destruct (mark_counts_origin tr h m id Hc) as [Hc'|(r & c & ->)]; [by left|].
        right; left. exists r, c. by eapply list_elem_of_lookup_2.
      * by right; left.
      * right; right. exists it'. split; [by apply list_elem_of_further|].
        split; [done|]. unfold isTrackedRef in *. by rewrite <- (mark_entityRefs tr h m).
    + destruct (IH tr hs Hs) as [Hc|[Hh|(it' & Hin & Hid & Ht)]]; [by left|by right; left|].
      right; right. exists it'. split; [by apply list_elem_of_further|done].
Qed.

(** Until the promise resolves, some count is below two or there is none:
    [onDone] resolves as soon as every count reaches two. *)
Lemma processStart_pending tr it :
  (is_Some (tr_resolved tr) \/ tr_counts tr = ∅ \/
     exists id n, tr_counts tr !! id = Some n /\ (n < 2)%nat) ->
  let tr' := (processStart tr it).1 in
  is_Some (tr_resolved tr') \/ tr_counts tr' = ∅ \/
    exists id n, tr_counts tr' !! id = Some n /\ (n < 2)%nat.
Proof.
  intros Hinv tr'. subst tr'. unfold processStart.
  destruct (isTrackedRef tr (ti_entityRef it)); simpl; [|done].
  destruct Hinv as [Hr|[He|(id & n & Hn & Hlt)]]; [by left| |].
  - right; right. exists (ti_id it), 0%nat. rewrite lookup_insert_eq, He. simpl. split; [done|lia].
  - right; right. destruct (decide (id = ti_id it)) as [->|Hne].
    + exists (ti_id it), n. rewrite lookup_insert_eq, Hn. done.
    + exists id, n. by rewrite lookup_insert_ne.
Qed.

Lemma forallb_false_exists {A} (f : A -> bool) (l : list A) :
  forallb f l = false -> exists x, In x l /\ f x = false.
Proof.
  induction l as [|a l IH]; simpl; [done|].
  destruct (f a) eqn:Ha; simpl.
  - intros H. destruct (IH H) as [x [? ?]]. eauto.
  - intros _. eauto.
Qed.

Lemma mark_pending tr h m :
  (is_Some (tr_resolved tr) \/ tr_counts tr = ∅ \/
     exists id n, tr_counts tr !! id = Some n /\ (n < 2)%nat) ->
  is_Some (tr_resolved (mark tr h m)) \/ tr_counts (mark tr h m) = ∅ \/
    exists id n, tr_counts (mark tr h m) !! id = Some n /\ (n < 2)%nat.
Proof.
  intros Hinv. destruct h as [|id r c]; [done|].
  assert (Hd : forall tr0, is_Some (tr_resolved (onDone tr0 id c)) \/
      tr_counts (onDone tr0 id c) = ∅ \/
      exists id' n, tr_counts (onDone tr0 id c) !! id' = Some n /\ (n < 2)%nat).
  { intros tr0. unfold onDone.
    destruct (forallb _ _) eqn:Hall; simpl.
    - left. destruct (tr_resolved tr0); by eexists.
    - right; right. apply forallb_false_exists in Hall as [[id' n] [Hin Hn]].
      exists id', n. simpl in Hn. split.
      + apply list_elem_of_In, elem_of_map_to_list in Hin. exact Hin.
      + change ((2 <=? n)%nat = false) in Hn. apply Nat.leb_nle in Hn. lia. }
  destruct m; simpl; try apply Hd; [done|].
  right; right. exists id, 0%nat. rewrite lookup_insert_eq. split; [done|lia].
Qed.

Lemma runTracker_pending tr hs evs :
  (is_Some (tr_resolved tr) \/ tr_counts tr = ∅ \/
     exists id n, tr_counts tr !! id = Some n /\ (n < 2)%nat) ->
  let tr' := runTracker tr hs evs in
  is_Some (tr_resolved tr') \/ tr_counts tr' = ∅ \/
    exists id n, tr_counts tr' !! id = Some n /\ (n < 2)%nat.
Proof.
  revert tr hs. induction evs as [|[it|i m] evs IH]; intros tr hs Hinv; simpl; [done| |].
  - pose proof (processStart_pending tr it Hinv) as Hp.
    destruct (processStart tr it) as [tr' h]. by apply IH.
  - destruct (hs !! i); apply IH; [by apply mark_pending|done].
Qed.

Lemma okClient_succeeds : clientSucceeds okClient.
Proof. repeat split; intros; eexists; reflexivity. Qed.

(* ------------------------------------------------------------------ *)
(** ** Further lemmas on the tracker *)

Lemma runTracker_noop tr hs evs :
  Forall (fun h => h = NoopTracking) hs ->
  (forall it, EvStart it ∈ evs -> isTrackedRef tr (ti_entityRef it) = false) ->
  runTracker tr hs evs = tr.
Proof.
  revert hs. induction evs as [|[it|i m] evs IH]; intros hs Hhs Hun; simpl; [done| |].
  - unfold processStart. rewrite (Hun it) by apply list_elem_of_here.
    apply IH. { apply Forall_app; split; [done|by constructor]. }
    intros it' Hin. apply Hun, list_elem_of_further, Hin.
  - destruct (hs !! i) as [h|] eqn:Hi.
    + rewrite Forall_lookup in Hhs. rewrite (Hhs _ _ Hi). simpl.
      apply IH; [by rewrite Forall_lookup|].
      intros it Hin. apply Hun, list_elem_of_further, Hin.
    + apply IH; [done|]. intros it Hin. apply Hun, list_elem_of_further, Hin.
Qed.

Lemma countInv_mono k k' tr hs : (k <= k')%nat -> countInv k tr hs -> countInv k' tr hs.
Proof.
  intros Hk (A & B & C). repeat split.
  - intros id n Hn. specialize (A _ _ Hn). lia.
  - intros id r c Hc. specialize (B _ _ _ Hc). lia.
  - intros Hs. specialize (C Hs). lia.
Qed.

Lemma onDone_countInv k tr id c :
  (forall id n, tr_counts tr !! id = Some n -> (n <= k)%nat) ->
  (is_Some (tr_resolved tr) -> (2 <= k)%nat) -> (c <= k)%nat ->
  (forall id' n, tr_counts (onDone tr id c) !! id' = Some n -> (n <= S k)%nat) /\
  (is_Some (tr_resolved (onDone tr id c)) -> (2 <= S k)%nat).
Proof.
  intros A C Hc. unfold onDone. destruct (forallb _ _) eqn:Hall; simpl.
  - split.
    + intros id' n. destruct (decide (id' = id)) as [->|Hne].
      * rewrite lookup_insert_eq. intros [= <-]. lia.
      * rewrite lookup_insert_ne by done. intros Hn. specialize (A _ _ Hn). lia.
    + intros _. assert (Hid := forallb_counts _ Hall id (S c)).
      simpl in Hid. rewrite lookup_insert_eq in Hid. specialize (Hid eq_refl). lia.
  - split.
    + intros id' n. destruct (decide (id' = id)) as [->|Hne].
      * rewrite lookup_insert_eq. intros [= <-]. lia.
      * rewrite lookup_insert_ne by done. intros Hn. specialize (A _ _ Hn). lia.
    + intros Hs. specialize (C Hs). lia.
Qed.

Lemma mark_countInv k tr hs h m :
  countInv k tr hs -> h ∈ hs ->
  countInv (if countedMark m then S k else k) (mark tr h m) hs.
Proof.
  intros (A & B & C) Hh. destruct h as [|id r c].
  { destruct (countedMark m); [apply (countInv_mono k); [lia|]|]; repeat split; done. }
  assert (Hc := B _ _ _ Hh).
  destruct m; simpl.
  - destruct (onDone_countInv k (setErrors tr (<[r:=err]> (tr_errors tr))) id c)
      as [A' C']; try done.
    repeat split; try done. intros id' r' c' Hin. specialize (B _ _ _ Hin). lia.
  - repeat split; done.
  - repeat split; try done. simpl. intros id' n.
    destruct (decide (id' = id)) as [->|Hne].
    + rewrite lookup_insert_eq. intros [= <-]. lia.
    + rewrite lookup_insert_ne by done. apply A.
  - destruct (onDone_countInv k (setErrors tr (delete r (tr_errors tr))) id c)
      as [A' C']; try done.
    repeat split; try done. intros id' r' c' Hin. specialize (B _ _ _ Hin). lia.
  - destruct (onDone_countInv k tr id c) as [A' C']; try done.
    repeat split; try done. intros id' r' c' Hin. specialize (B _ _ _ Hin). lia.
Qed.

Lemma processStart_countInv k tr hs it :
  countInv k tr hs ->
  countInv k (processStart tr it).1 (app hs [(processStart tr it).2]).
Proof.
  intros (A & B & C).
  pose proof (processStart_fields tr it) as (_ & _ & R & H & Cn).
  repeat split.
  - intros id n. rewrite Cn. destruct (_ && _).
    + destruct (tr_counts tr !! ti_id it) as [n'|] eqn:E; simpl; intros [= <-];
        [by apply (A (ti_id it))|lia].
    + apply A.
  - intros id r c Hin. apply elem_of_app in Hin as [Hin|Hin]; [by apply (B id r)|].
    apply list_elem_of_singleton in Hin. rewrite H in Hin.
    destruct (isTrackedRef _ _); [|done]. injection Hin as _ _ Hc. subst c.
    destruct (tr_counts tr !! ti_id it) as [n'|] eqn:E; simpl;
      [by apply (A (ti_id it))|lia].
  - rewrite R. apply C.
Qed.

Lemma runTracker_countInv k tr hs evs :
  countInv k tr hs ->
  countInv (k + length (List.filter countedEvent evs)) (runTracker tr hs evs) [].
Proof.
  revert k tr hs. induction evs as [|[it|i m] evs IH]; intros k tr hs Hinv; simpl.
  - destruct Hinv as (A & B & C). repeat split; try done.
    + intros id n Hn. specialize (A _ _ Hn). lia.
    + intros ? ? ? Hin. by apply not_elem_of_nil in Hin.
    + intros Hs. specialize (C Hs). lia.
  - pose proof (processStart_countInv k tr hs it Hinv) as Hi.
    destruct (processStart tr it) as [tr' h]. by apply IH.
  - destruct (hs !! i) as [h|] eqn:Hi.
    + pose proof (mark_countInv k tr hs h m Hinv (list_elem_of_lookup_2 _ _ _ Hi)) as Hm.
      destruct (countedMark m); simpl.
      * replace (k + S _)%nat with (S k + length (List.filter countedEvent evs))%nat by lia.
        by apply IH.
      * by apply IH.
    + destruct (countedMark m); simpl.
      * replace (k + S _)%nat with (S k + length (List.filter countedEvent evs))%nat by lia.
        apply IH. apply (countInv_mono k); [lia|done].
      * by apply IH.
Qed.

(** Where a recorded error comes from: a [markFailed] on a tracking object
    of the same reference. *)
Lemma lastFailure_origin refs rs evs r cur e :
  lastFailure refs rs evs r cur = Some e ->
  cur = Some e \/
  exists i, EvMark i (MarkFailed e) ∈ evs /\
    app rs ((fun it => if refTracked refs (ti_entityRef it) then Some (ti_entityRef it) else None)
              <$> startedItems evs) !! i = Some (Some r).
Proof.
  revert rs cur. induction evs as [|[it|i m] evs IH]; intros rs cur H; simpl in H; [by left| |].
  - destruct (IH _ _ H) as [He|(i & Hi & Hl)]; [by left|].
    right. exists i. split; [by apply list_elem_of_further|].
    unfold startedItems in *. simpl. by rewrite <- app_assoc in Hl.
  - destruct (IH _ _ H) as [He|(i' & Hi & Hl)].
    + destruct (rs !! i) as [[r'|]|] eqn:Hri; try by left.
      case_bool_decide as Hr; [|by left]. subst r'.
      destruct m; try by left; try discriminate.
      injection He as ->. right. exists i. split; [apply list_elem_of_here|].
      by apply lookup_app_l_Some.
    + right. exists i'. split; [by apply list_elem_of_further|done].
Qed.

(** [#inFlight] *)

Lemma inFlightRun_app refs sl fl evs1 evs2 :
  inFlightRun refs sl fl (app evs1 evs2) =
  let '(sl', fl') := inFlightRun refs sl fl evs1 in inFlightRun refs sl' fl' evs2.
Proof.
  revert sl fl. induction evs1 as [|[it|i m] evs1 IH]; intros sl fl; simpl; [done| |].
  - destruct (refTracked _ _); apply IH.
  - destruct (sl !! i) as [[j|]|]; [destruct m| |]; apply IH.
Qed.

Lemma slotsInv_start (sl : list (option nat)) (fl : list bool) (b : bool) :
  slotsInv sl fl ->
  slotsInv (app sl [(if b then Some (length fl) else None : option nat)]) (if b then app fl [false] else fl).
Proof.
  intros (A & B & C). destruct b; repeat split.
  - intros s j Hs. rewrite length_app. simpl.
    apply lookup_app_Some in Hs as [Hs|[Hl Hs]]; [specialize (A _ _ Hs); lia|].
    apply list_lookup_singleton_Some in Hs as [_ Hs]. injection Hs as <-. lia.
  - intros s s' j Hs Hs'.
    apply lookup_app_Some in Hs as [Hs|[Hl Hs]]; apply lookup_app_Some in Hs' as [Hs'|[Hl' Hs']].
    + by apply (B _ _ j).
    + apply list_lookup_singleton_Some in Hs' as [_ Hs']. injection Hs' as <-.
      specialize (A _ _ Hs). lia.
    + apply list_lookup_singleton_Some in Hs as [_ Hs]. injection Hs as <-.
      specialize (A _ _ Hs'). lia.
    + apply list_lookup_singleton_Some in Hs as [Hs _].
      apply list_lookup_singleton_Some in Hs' as [Hs' _]. lia.
  - intros j Hj. rewrite length_app in Hj. simpl in Hj.
    destruct (decide (j < length fl)%nat) as [Hlt|Hge].
    + destruct (C _ Hlt) as [s Hs]. exists s. by apply lookup_app_l_Some.
    + exists (length sl). rewrite lookup_app_r by lia. rewrite Nat.sub_diag. simpl.
      f_equal. f_equal. lia.
  - intros s j Hs. apply lookup_app_Some in Hs as [Hs|[Hl Hs]]; [by apply (A s)|].
    by apply list_lookup_singleton_Some in Hs as [_ Hs].
  - intros s s' j Hs Hs'.
    apply lookup_app_Some in Hs as [Hs|[Hl Hs]]; apply lookup_app_Some in Hs' as [Hs'|[Hl' Hs']];
      try (apply list_lookup_singleton_Some in Hs as [_ Hs]; done);
      try (apply list_lookup_singleton_Some in Hs' as [_ Hs']; done).
    by apply (B _ _ j).
  - intros j Hj. destruct (C _ Hj) as [s Hs]. exists s. by apply lookup_app_l_Some.
Qed.

Lemma slotsInv_mark sl fl j :
  slotsInv sl fl -> slotsInv sl (<[j := true]> fl).
Proof. unfold slotsInv. by rewrite length_insert. Qed.

Lemma inFlightRun_inv refs sl fl evs :
  slotsInv sl fl -> slotsInv (inFlightRun refs sl fl evs).1 (inFlightRun refs sl fl evs).2.
Proof.
  revert sl fl. induction evs as [|[it|i m] evs IH]; intros sl fl Hinv; simpl; [done| |].
  - pose proof (slotsInv_start sl fl (refTracked refs (ti_entityRef it)) Hinv).
    destruct (refTracked _ _); by apply IH.
  - destruct (sl !! i) as [[j|]|]; [destruct m| |]; apply IH; try done;
      by apply slotsInv_mark.
Qed.

Lemma inFlightRun_prefix refs sl fl evs s x :
  sl !! s = Some x -> (inFlightRun refs sl fl evs).1 !! s = Some x.
Proof.
  revert sl fl. induction evs as [|[it|i m] evs IH]; intros sl fl Hs; simpl; [done| |].
  - destruct (refTracked _ _); apply IH; by apply lookup_app_l_Some.
  - destruct (sl !! i) as [[j|]|]; [destruct m| |]; by apply IH.
Qed.

Lemma inFlightRun_length refs sl fl evs :
  (length fl <= length (inFlightRun refs sl fl evs).2)%nat.
Proof.
  revert sl fl. induction evs as [|[it|i m] evs IH]; intros sl fl; simpl; [done| |].
  - destruct (refTracked _ _); [|apply IH].
    etrans; [|apply IH]. rewrite length_app. simpl. lia.
  - destruct (sl !! i) as [[j|]|]; [destruct m| |]; try apply IH;
      (etrans; [|apply IH]; by rewrite length_insert).
Qed.

Lemma inFlightRun_slots refs sl fl evs :
  (fun o : option nat => bool_decide (is_Some o)) <$> (inFlightRun refs sl fl evs).1 =
  app ((fun o : option nat => bool_decide (is_Some o)) <$> sl)
      ((fun it => refTracked refs (ti_entityRef it)) <$> startedItems evs).
Proof.
  revert sl fl. induction evs as [|[it|i m] evs IH]; intros sl fl; simpl.
  - by rewrite app_nil_r.
  - destruct (refTracked _ _) eqn:Ht; rewrite IH, fmap_app, <- app_assoc; simpl;
      done.
  - destruct (sl !! i) as [[j|]|]; [destruct m| |]; apply IH.
Qed.

(** When a promise of [#inFlight] has resolved. *)
Lemma inFlightRun_resolved refs sl fl evs s j :
  slotsInv sl fl -> marksAfterStarts (length sl) evs = true ->
  (inFlightRun refs sl fl evs).1 !! s = Some (Some j) ->
  ((inFlightRun refs sl fl evs).2 !! j = Some true <->
   (sl !! s = Some (Some j) /\ fl !! j = Some true) \/
   exists m, EvMark s m ∈ evs /\ m <> MarkProcessorsCompleted).
Proof.
  revert sl fl. induction evs as [|[it|i m] evs IH]; intros sl fl Hinv Hwf Hs; simpl in *.
  - split; [intros H; by left|].
    intros [[_ H]|(m & Hm & _)]; [done|by apply not_elem_of_nil in Hm].
  - pose proof (slotsInv_start sl fl (refTracked refs (ti_entityRef it)) Hinv) as Hinv'.
    destruct Hinv as (A & B & C).
    destruct (refTracked _ _).
    + rewrite (IH _ _ Hinv') by (try done; by rewrite length_app, Nat.add_comm).
      split.
      * intros [[Hs' Hj]|(m & Hm & Hne)]; [|right; exists m; split; [by apply list_elem_of_further|done]].
        apply lookup_app_Some in Hs' as [Hs'|[Hl Hs']].
        -- left. split; [done|]. apply lookup_app_Some in Hj as [Hj|[Hl' Hj]]; [done|].
           specialize (A _ _ Hs'). lia.
        -- apply list_lookup_singleton_Some in Hs' as [_ Hs']. injection Hs' as <-.
           apply lookup_app_Some in Hj as [Hj|[_ Hj]].
           ++ apply lookup_lt_Some in Hj. lia.
           ++ rewrite Nat.sub_diag in Hj. done.
      * intros [[Hs' Hj]|(m & Hm & Hne)].
        -- left. split; by apply lookup_app_l_Some.
        -- right. exists m. split; [|done]. by apply elem_of_cons in Hm as [Hm|Hm].
    + rewrite (IH _ _ Hinv') by (try done; by rewrite length_app, Nat.add_comm).
      split.
      * intros [[Hs' Hj]|(m & Hm & Hne)]; [|right; exists m; split; [by apply list_elem_of_further|done]].
        apply lookup_app_Some in Hs' as [Hs'|[Hl Hs']]; [by left|].
        by apply list_lookup_singleton_Some in Hs' as [_ Hs'].
      * intros [[Hs' Hj]|(m & Hm & Hne)].
        -- left. split; [by apply lookup_app_l_Some|done].
        -- right. exists m. split; [|done]. by apply elem_of_cons in Hm as [Hm|Hm].
  - apply andb_true_iff in Hwf as [Hi Hwf]. apply Nat.ltb_lt in Hi.
    destruct (sl !! i) as [[j'|]|] eqn:Hsi.
    2: { rewrite (IH _ _ Hinv Hwf Hs). split.
         - intros [H|(m' & Hm & Hne)]; [by left|right; exists m'; split; [by apply list_elem_of_further|done]].
         - intros [H|(m' & Hm & Hne)]; [by left|].
           apply elem_of_cons in Hm as [Hm|Hm].
           + injection Hm as -> ->.
             rewrite (inFlightRun_prefix refs sl fl evs i None Hsi) in Hs. done.
           + right. by exists m'. }
    2: { apply lookup_ge_None in Hsi. lia. }
    destruct (decide (m = MarkProcessorsCompleted)) as [->|Hpc].
    + rewrite (IH _ _ Hinv Hwf Hs). split.
      * intros [H|(m' & Hm & Hne)]; [by left|right; exists m'; split; [by apply list_elem_of_further|done]].
      * intros [H|(m' & Hm & Hne)]; [by left|].
        apply elem_of_cons in Hm as [Hm|Hm]; [by injection Hm as -> ->|].
        right. by exists m'.
    + assert (Hcase : forall A (x y : A),
                match m with MarkProcessorsCompleted => x | _ => y end = y).
      { intros A x y. by destruct m. }
      rewrite Hcase in Hs |- *.
      assert (Hsj : s = i -> j = j').
      { intros ->. rewrite (inFlightRun_prefix refs sl _ evs i _ Hsi) in Hs. by injection Hs. }
      rewrite (IH _ _ (slotsInv_mark _ _ _ Hinv) Hwf Hs).
      destruct Hinv as (A & B & C).
      assert (Hj' := A _ _ Hsi).
      split.
      * intros [[Hs' Hj]|(m' & Hm & Hne)];
          [|right; exists m'; split; [by apply list_elem_of_further|done]].
        destruct (decide (j = j')) as [->|Hne].
        -- right. exists m. rewrite (B _ _ _ Hs' Hsi). split; [apply list_elem_of_here|done].
        -- left. split; [done|]. by rewrite list_lookup_insert_ne in Hj.
      * intros [[Hs' Hj]|(m' & Hm & Hne)].
        -- left. split; [done|].
           destruct (decide (j = j')) as [->|Hne]; [by rewrite list_lookup_insert_eq|].
           by rewrite list_lookup_insert_ne.
        -- apply elem_of_cons in Hm as [Hm|Hm].
           ++ injection Hm as -> ->. rewrite (Hsj eq_refl). left.
              split; [done|]. by rewrite list_lookup_insert_eq.
           ++ right. by exists m'.
Qed.

(* ------------------------------------------------------------------ *)
(** ** Strings *)

(** [String.append] is kept folded by [simpl]; these unfold one step. *)
Lemma append_String c s t : String c s +:+ t = String c (s +:+ t).
Proof. reflexivity. Qed.

Lemma append_EmptyString t : EmptyString +:+ t = t.
Proof. reflexivity. Qed.

Lemma replaceFirst_cons p r c s :
  stripPrefix p (String c s) = None ->
  replaceFirst p r (String c s) = String c (replaceFirst p r s).
Proof.
  intros H.
  change (replaceFirst p r (String c s)) with
    (match stripPrefix p (String c s) with
     | Some rest => r +:+ rest
     | None => String c (replaceFirst p r s)
     end).
  by rewrite H.
Qed.

Lemma stripPrefix_Some p s r : stripPrefix p s = Some r -> s = p +:+ r.
Proof.
  revert s. induction p as [|c p IH]; intros s H; simpl in H.
  - by injection H as ->.
  - destruct s as [|d s]; [done|]. destruct (Ascii.ascii_dec c d) as [->|]; [|done].
    rewrite (IH s H). reflexivity.
Qed.

Lemma containsStr_cons p c s :
  stripPrefix p (String c s) = None -> containsStr p (String c s) = containsStr p s.
Proof.
  intros H.
  change (containsStr p (String c s)) with
    (match stripPrefix p (String c s) with
     | Some _ => true
     | None => containsStr p s
     end).
  by rewrite H.
Qed.

Lemma containsStr_complete p s : (exists a b, s = a +:+ p +:+ b) -> containsStr p s = true.
Proof.
  intros (a & b & ->). induction a as [|c a IH].
  - rewrite append_EmptyString. destruct p as [|c p].
    + destruct b; reflexivity.
    + assert (H : stripPrefix (String c p) (String c p +:+ b) = Some b).
      { clear. revert c. induction p as [|c' p IH]; intros c; simpl;
          (destruct (Ascii.ascii_dec c c); [|congruence]); [done|apply IH]. }
      rewrite append_String in H |- *.
      change (containsStr (String c p) (String c (p +:+ b))) with
        (match stripPrefix (String c p) (String c (p +:+ b)) with
         | Some _ => true
         | None => containsStr (String c p) (p +:+ b)
         end).
      by rewrite H.
  - rewrite append_String.
    destruct (stripPrefix p (String c (a +:+ p +:+ b))) eqn:Hs.
    + change (containsStr p (String c (a +:+ p +:+ b))) with
        (match stripPrefix p (String c (a +:+ p +:+ b)) with
         | Some _ => true
         | None => containsStr p (a +:+ p +:+ b)
         end).
      by rewrite Hs.
    + by rewrite containsStr_cons.
Qed.

(* ------------------------------------------------------------------ *)
(** ** Runs of [patch] against any client *)

(** Split every request result and the [successCb] result in turn. *)
Ltac destruct_patch_results :=
  repeat match goal with
  | |- context [match ?c with Some _ => _ | None => _ end] =>
      lazymatch c with
      | Some _ => fail
      | None => fail
      | _ => destruct c
      end
  end.

Ltac destruct_patch_results_eqn :=
  repeat match goal with
  | |- context [match ?c with Some _ => _ | None => _ end] =>
      lazymatch c with
      | Some _ => fail
      | None => fail
      | _ => let E := fresh "E" in destruct c eqn:E
      end
  end.

(** Every request recorded in a list of events resolved. *)
Lemma requests_resolved_of (t : list PatchEvent) :
  forallb (fun ev => match ev with EvRequest _ b => b | _ => true end) t = true ->
  forall q b, EvRequest q b ∈ t -> b = true.
Proof.
  rewrite forallb_forall. intros H q b Hin.
  exact (H _ (proj1 (list_elem_of_In _ _) Hin)).
Qed.

(** The only call of [successCb] recorded in [t] is its last event when
    the events before the last record none. *)
Lemma successCb_event_last (t : list PatchEvent) (a : SuccessArgs) :
  forallb (fun ev => match ev with EvSuccessCb _ => false | _ => true end) (removelast t) = true ->
  EvSuccessCb a ∈ t -> last t = Some (EvSuccessCb a).
Proof.
  rewrite forallb_forall. intros H Hin.
  destruct t as [|x t'] using rev_ind; [by apply not_elem_of_nil in Hin|].
  rewrite removelast_last in H. rewrite last_snoc.
  apply elem_of_app in Hin as [Hin|Hin].
  - specialize (H _ (proj1 (list_elem_of_In _ _) Hin)). done.
  - by apply list_elem_of_singleton in Hin as ->.
Qed.


(* ------------------------------------------------------------------ *)
(** ** Claims *)

(** C6: stitching is idempotent and deterministic: stitching a reference
    twice in a row gives the same store, hence the same visible entity. *)
Theorem stitch_idempotent (st : Store) (r : string) :
  stitch (stitch st r) r = stitch st r /\
  finals (stitch (stitch st r) r) !! r = finals (stitch st r) !! r.
Proof.
  assert (H : stitch (stitch st r) r = stitch st r).
  { unfold stitch.
    destruct (stitchEntity st r) as [m|] eqn:Hm;
      rewrite stitchEntity_setFinals, Hm; unfold setFinals; simpl.
    - by rewrite insert_insert_eq.
    - by rewrite delete_delete_eq. }
  split; [exact H|]. by rewrite H.
Qed.



(** C2: 'should add entities and update errors': every sweep before the flag
    lists exactly [component:default/test] with no status and no relations;
    every sweep after it lists the same entity and relations with exactly one
    error status item wrapping [Error: NOPE] with the processor's identity;
    the next successful sweep clears it. *)
Theorem error_surfacing (n k : nat) :
  1 <= n -> 1 <= k ->
  let s1 := passes n (errorProcs false) errorStart in
  let s2 := passes k (errorProcs true) s1 in
  outputEntities s1 = {[ testRef := expectedTest [] ]} /\
  outputEntities s2 = {[ testRef := expectedTest [nopeStatusItem] ]} /\
  outputEntities (pass (errorProcs false) s2) = {[ testRef := expectedTest [] ]}.
Proof.
  intros Hn Hk s1 s2.
  assert (E1 : s1 = passes 1 (errorProcs false) errorStart).
  { apply passes_from with (k := 1); [lia|done|vm_compute; reflexivity]. }
  assert (E2 : s2 = passes 1 (errorProcs true) (passes 1 (errorProcs false) errorStart)).
  { unfold s2. rewrite E1.
    apply passes_from with (k := 1); [lia|done|vm_compute; reflexivity]. }
  rewrite E1, E2. split; [|split]; vm_compute; reflexivity.
Qed.

Lemma error_surfacing_witness :
  1 <= 1 /\ 1 <= 1 /\
  outputEntities (passes 1 (errorProcs true) (passes 1 (errorProcs false) errorStart)) =
    {[ testRef := expectedTest [nopeStatusItem] ]}.
Proof.
  split; [lia|]. split; [lia|].
  exact (proj1 (proj2 (error_surfacing 1 1 ltac:(lia) ltac:(lia)))).
Defined.

(** C4: a write for [R] whose location key differs from [R]'s non-null key
    [L1] is rejected; a full mutation whose entries for [R] all carry such
    keys does not accept [R] and leaves [R]'s refresh-state item as it was. *)
Theorem location_key_conflict (st : Store) (R L1 : string) (inp : Input)
  (provider : string) (es : list (Entity * option string)) :
  inputs st !! R = Some inp -> locationKey inp = Some L1 ->
  (forall e k, stringifyEntityRef e = R -> k <> Some L1 ->
     upsertItem (inputs st) R e k = UpsertRejected) /\
  ((forall e k, In (e, k) es -> stringifyEntityRef e = R -> k <> Some L1) ->
   (R ∉ (upsertAll (inputs st) es).2) /\
   itemOf (applyFullMutation provider es st) R = itemOf st R).
Proof.
  intros Hin Hkey. split.
  - intros e k _ Hk. unfold upsertItem. rewrite Hin, Hkey. simpl.
    by rewrite bool_decide_false.
  - intros Hes. destruct (upsertAll_conflict es (inputs st) R inp L1 Hin Hkey Hes) as [H1 H2].
    split; [done|].
    unfold itemOf, applyFullMutation.
    destruct (upsertAll (inputs st) es) as [ins acc] eqn:Hu; simpl in *.
    by rewrite H1, Hin.
Qed.

Lemma location_key_conflict_witness :
  inputs conflictStore !! "component:default/b" =
    Some (mkInput (mkComponent "b" false) (Some "loc")) /\
  itemOf (applyFullMutation "other" [(mkComponent "b" true, Some "loc2")] conflictStore)
    "component:default/b" = itemOf conflictStore "component:default/b".
Proof.
  split; [vm_compute; reflexivity|].
  refine (proj2 (proj2 (location_key_conflict conflictStore "component:default/b" "loc"
    (mkInput (mkComponent "b" false) (Some "loc")) "other"
    [(mkComponent "b" true, Some "loc2")] _ _) _));
    [vm_compute; reflexivity|reflexivity|].
  intros e k [[= <- <-]|[]] _. discriminate.
Defined.

(** C7: every processing attempt issues [markProcessorsCompleted] and then
    exactly one terminal callback, whatever the orchestrator returns and
    whichever store operation fails. *)
Theorem one_terminal_callback (fault : StoreOp -> option string)
  (ps : list Processor) (x : string) (inp : Input) (st : Store) :
  exists c, (runAttempt fault ps x inp st).2 = [CbProcessorsCompleted; c] /\
    isTerminal c = true /\
    length (filter (fun c => isTerminal c = true) (runAttempt fault ps x inp st).2) = 1.
Proof.
  unfold runAttempt, processItem, catchE, processBody.
  cbv [mbind mret Eng_bind Eng_ret getStore track storeOp].
  destruct (orchestrate ps (unprocessedEntity inp)) as [pe ch rels|errs].
  - case_bool_decide.
    + destruct (fault OpUpdateNextRefresh); eexists; simpl; done.
    + destruct (fault OpWriteResult); [eexists; simpl; done|].
      destruct (fault OpStitch); eexists; simpl; done.
  - destruct (fault OpWriteErrors); [eexists; simpl; done|].
    destruct (fault OpStitch); eexists; simpl; done.
Qed.

(** C3: the members of an emission cycle (each emitted by another member,
    all of them entities managed by the same location [L], so that each
    emission is keyed [Some L] like the member's own input and passes the
    location-key arbitration) keep an input, a processed entity and a claim
    from their emitter through any number of sweeps, whatever the entity
    that first reached the cycle does; so after every sweep each member is
    listed and carries no orphan marker. *)
Theorem cycle_never_orphaned (ps : list Processor) (C : list string)
  (pred : string -> string) (Allowed : list Entity) (L : string) (st : Store) (n : nat) :
  cycleClosedb ps C pred Allowed L = true ->
  (forall e pe ch rels c, orchestrate ps e = OrchOk pe ch rels -> c ∈ ch ->
     stringifyEntityRef c ∈ C -> c ∈ Allowed) ->
  cycleInvb C pred Allowed L st = true ->
  forall x, x ∈ C -> exists m,
    outputEntities (passes (S n) ps st) !! x = Some m /\ isOrphanMarked m = false.
Proof.
  intros Hcl Hemit Hinv x Hx.
  destruct (cycleClosedb_sound _ _ _ _ _ Hcl) as [HL HC].
  replace (S n) with (n + 1) by lia. rewrite passes_add. simpl.
  apply (pass_cycle_visible ps C pred Allowed L HL HC Hemit); [|done].
  apply passes_cycle; [done|done|done|].
  by apply cycleInvb_sound.
Qed.

Lemma cycle_never_orphaned_witness :
  cycleInvb cycleRefs cyclePred cycleAllowed "url:." cycleAfterRootStops = true /\
  exists m, outputEntities (passes 3 cycleProcs cycleAfterRootStops) !! "component:default/b"
    = Some m /\ isOrphanMarked m = false.
Proof.
  split; [vm_compute; reflexivity|].
  apply (cycle_never_orphaned cycleProcs cycleRefs cyclePred cycleAllowed "url:."
           cycleAfterRootStops 2).
  - vm_compute; reflexivity.
  - intros e pe ch rels c Ho Hc _. exact (cycleProcs_emits e pe ch rels c Ho Hc).
  - vm_compute; reflexivity.
  - apply list_elem_of_here.
Defined.



(** C8 (as amended): [wait()] resolves at a counted callback (no-change,
    with-errors or failed) after which every item that the tracker has
    started, among the tracked references, has a count of at least two; a
    with-changes callback resets its item's count to zero, and tracked
    references not yet started are not waited for: on a fresh tracker the
    counts only hold ids of started tracked items.  Callbacks and
    [processStart] of one item change neither the count of another item id
    nor the error entry of another reference; [processStart] never resolves
    and changes no error entry, and once resolved the value stays whatever
    events follow. *)
Theorem tracker_waits_for_started_items (tr : Tracker) (hs : list Tracking)
  (evs : list TrackerEvent) (v : gmap string string) :
  tr_resolved tr = None -> tr_resolved (runTracker tr hs evs) = Some v ->
  (forall trx id r c m id', id' <> id ->
     tr_counts (mark trx (WaitingTracking id r c) m) !! id' = tr_counts trx !! id') /\
  (forall trx id r c m r', r' <> r ->
     tr_errors (mark trx (WaitingTracking id r c) m) !! r' = tr_errors trx !! r') /\
  (forall trx it id', id' <> ti_id it ->
     tr_counts (processStart trx it).1 !! id' = tr_counts trx !! id') /\
  (forall trx it, tr_errors (processStart trx it).1 = tr_errors trx /\
     tr_resolved (processStart trx it).1 = tr_resolved trx) /\
  (forall trx id r c,
     tr_counts (mark trx (WaitingTracking id r c) MarkSuccessfulWithChanges) !! id = Some 0%nat) /\
  (forall refs evs' id, is_Some (tr_counts (runTracker (newTracker refs) [] evs') !! id) ->
     exists it, EvStart it ∈ evs' /\ ti_id it = id /\ refTracked refs (ti_entityRef it) = true) /\
  (forall evs', tr_resolved (runTracker tr hs (app evs evs')) = Some v) /\
  exists evs1 i m evs2, evs = app evs1 (EvMark i m :: evs2) /\ countedMark m = true /\
    tr_resolved (runTracker tr hs evs1) = None /\
    tr_resolved (runTracker tr hs (app evs1 [EvMark i m])) = Some v /\
    (forall it, EvStart it ∈ evs1 -> isTrackedRef tr (ti_entityRef it) = true ->
       exists n, tr_counts (runTracker tr hs (app evs1 [EvMark i m])) !! ti_id it = Some n /\
         (2 <= n)%nat).
Proof.
  intros H0 Hv. split; [exact mark_counts_other|].
  split; [exact mark_errors_other|]. split; [exact processStart_counts_other|].
  split.
  { intros trx it. pose proof (processStart_fields trx it) as (_ & Er & R & _). done. }
  split.
  { intros trx id r c. simpl. by rewrite lookup_insert_eq. }
  split.
  { intros refs evs' id Hs.
    destruct (runTracker_counts_origin _ _ _ _ Hs) as [[n Hn]|[(r & c & Hh)|Hit]].
    - unfold newTracker in Hn. simpl in Hn. by rewrite lookup_empty in Hn.
    - by apply not_elem_of_nil in Hh.
    - exact Hit. }
  split; [intros evs'; by apply runTracker_app_resolved|].
  destruct (runTracker_resolution _ _ _ _ H0 Hv) as (evs1 & i & m & evs2 & Hevs & Hm & H1 & H2 & _ & H4).
  exists evs1, i, m, evs2. repeat (split; [done|]).
  intros it Hit Htr.
  destruct (runTracker_started tr hs (app evs1 [EvMark i m]) it) as [n Hn];
    [by apply elem_of_app; left|done|].
  exists n. split; [done|]. exact (H4 _ _ Hn).
Qed.

Lemma tracker_waits_for_started_items_witness :
  tr_resolved (runTracker (newTracker (Some ["component:default/a"; "component:default/b"])) []
    twoItemsEvents) = Some {["component:default/a" := "boom"]} /\
  exists evs1 i m evs2, twoItemsEvents = app evs1 (EvMark i m :: evs2) /\ countedMark m = true /\
    tr_resolved (runTracker (newTracker (Some ["component:default/a"; "component:default/b"])) []
      evs1) = None /\
    tr_resolved (runTracker (newTracker (Some ["component:default/a"; "component:default/b"])) []
      (app evs1 [EvMark i m])) = Some {["component:default/a" := "boom"]} /\
    (forall it, EvStart it ∈ evs1 ->
       isTrackedRef (newTracker (Some ["component:default/a"; "component:default/b"]))
         (ti_entityRef it) = true ->
       exists n, tr_counts (runTracker (newTracker (Some ["component:default/a"; "component:default/b"]))
         [] (app evs1 [EvMark i m])) !! ti_id it = Some n /\ (2 <= n)%nat).
Proof.
  split; [vm_compute; reflexivity|].
  refine (proj2 (proj2 (proj2 (proj2 (proj2 (proj2 (proj2
    (tracker_waits_for_started_items (newTracker (Some ["component:default/a"; "component:default/b"]))
       [] twoItemsEvents {["component:default/a" := "boom"]} _ _)))))))).
  - reflexivity.
  - vm_compute; reflexivity.
Defined.

(** C8 fails as stated: with the tracked set [{a, b}], two no-change
    passes of [a] resolve [wait()] while [b] has not been started at all. *)
Lemma tracker_wait_counterexample :
  tr_resolved (runTracker (newTracker (Some ["component:default/a"; "component:default/b"])) []
    earlyResolveEvents) = Some ∅ /\
  tr_counts (runTracker (newTracker (Some ["component:default/a"; "component:default/b"])) []
    earlyResolveEvents) !! ti_id itemB = None.
Proof. split; vm_compute; reflexivity. Qed.

(** C10 (as amended): a with-changes callback sets its item's count to zero
    and never resolves; a counted callback sets it to the count seen at
    [processStart] plus one.  On a fresh tracker, [wait()] has resolved
    once some tracked item has been started and every started tracked item
    has a count of at least two.  The promise resolves at a counted
    callback after which every count is at least two, and the record it
    resolves to maps [r] to the error of the last failed callback of [r]
    up to that callback, unless a later with-changes or with-errors
    callback of [r] cleared it: a no-change pass keeps an earlier
    failure. *)
Theorem tracker_error_record (tr : Tracker) (hs : list Tracking)
  (evs : list TrackerEvent) (v : gmap string string) :
  tr_resolved tr = None -> tr_resolved (runTracker tr hs evs) = Some v ->
  (forall trx id r c,
     tr_counts (mark trx (WaitingTracking id r c) MarkSuccessfulWithChanges) !! id = Some 0%nat /\
     tr_resolved (mark trx (WaitingTracking id r c) MarkSuccessfulWithChanges) = tr_resolved trx) /\
  (forall trx id r c m, countedMark m = true ->
     tr_counts (mark trx (WaitingTracking id r c) m) !! id = Some (S c)) /\
  (forall refs evs',
     (exists it, EvStart it ∈ evs' /\ refTracked refs (ti_entityRef it) = true) ->
     (forall it, EvStart it ∈ evs' -> refTracked refs (ti_entityRef it) = true ->
        exists n, tr_counts (runTracker (newTracker refs) [] evs') !! ti_id it = Some n /\
          (2 <= n)%nat) ->
     is_Some (tr_resolved (runTracker (newTracker refs) [] evs'))) /\
  exists evs1 i m evs2, evs = app evs1 (EvMark i m :: evs2) /\
    tr_resolved (runTracker tr hs evs1) = None /\
    tr_resolved (runTracker tr hs (app evs1 [EvMark i m])) = Some v /\
    (forall id n, tr_counts (runTracker tr hs (app evs1 [EvMark i m])) !! id = Some n ->
       (2 <= n)%nat) /\
    forall r, v !! r = lastFailure (tr_entityRefs tr) (map trackingRef hs)
                         (app evs1 [EvMark i m]) r (tr_errors tr !! r).
Proof.
  intros H0 Hv. split.
  { intros trx id r c. simpl. by rewrite lookup_insert_eq. }
  split.
  { intros trx id r c m Hm. destruct m; try done; unfold mark, onDone; simpl;
      destruct (forallb _ _); simpl; by rewrite lookup_insert_eq. }
  split.
  { intros refs evs' [it0 [Hin0 Ht0]] Hall.
    destruct (runTracker_pending (newTracker refs) [] evs') as [Hr|[He|(id & n & Hn & Hlt)]];
      [by right; left|done| |].
    - destruct (runTracker_started (newTracker refs) [] evs' it0 Hin0 Ht0) as [n Hn].
      by rewrite He, lookup_empty in Hn.
    - destruct (runTracker_counts_origin (newTracker refs) [] evs' id)
        as [[n' Hn']|[(r & c & Hh)|(it & Hin & <- & Ht)]]; [by eexists| | |].
      + unfold newTracker in Hn'. simpl in Hn'. by rewrite lookup_empty in Hn'.
      + by apply not_elem_of_nil in Hh.
      + destruct (Hall it Hin Ht) as (n' & Hn' & Hle). rewrite Hn in Hn'.
        injection Hn' as <-. lia. }
  destruct (runTracker_resolution _ _ _ _ H0 Hv)
    as (evs1 & i & m & evs2 & Hevs & _ & H1 & H2 & H3 & H4).
  exists evs1, i, m, evs2. repeat (split; [done|]).
  intros r. by rewrite H3, runTracker_errors.
Qed.

Lemma tracker_error_record_witness :
  tr_resolved (runTracker (newTracker None) [] failedThenNoChangeEvents)
    = Some {["component:default/a" := "boom"]} /\
  exists evs1 i m evs2, failedThenNoChangeEvents = app evs1 (EvMark i m :: evs2) /\
    tr_resolved (runTracker (newTracker None) [] evs1) = None /\
    tr_resolved (runTracker (newTracker None) [] (app evs1 [EvMark i m]))
      = Some {["component:default/a" := "boom"]} /\
    (forall id n, tr_counts (runTracker (newTracker None) [] (app evs1 [EvMark i m])) !! id
       = Some n -> (2 <= n)%nat) /\
    forall r, ({["component:default/a" := "boom"]} : gmap string string) !! r =
      lastFailure None [] (app evs1 [EvMark i m]) r None.
Proof.
  split; [vm_compute; reflexivity|].
  refine (proj2 (proj2 (proj2
    (tracker_error_record (newTracker None) [] failedThenNoChangeEvents
       {["component:default/a" := "boom"]} _ _)))).
  - reflexivity.
  - vm_compute; reflexivity.
Defined.

(** C10 fails as stated: after a failed and then a no-change pass of [a],
    the resolved record still holds [a]'s error, though [a]'s most recent
    counted pass was no-change. *)
Lemma tracker_record_counterexample :
  tr_resolved (runTracker (newTracker None) [] failedThenNoChangeEvents)
    = Some {["component:default/a" := "boom"]}.
Proof. vm_compute; reflexivity. Qed.

(** C9 (as amended): in a run where every GitHub request resolves, [patch]
    pushes eight entries, and the run is: fetch release branch, its entry,
    create temp commit, its entry, force branch head (no entry), merge, its
    entry, cherry-pick commit, its entry, replace temp commit, its entry,
    create tag object, its entry, create reference, its entry, update
    release, its entry, and last the single call of [successCb] if one is
    given.  If [successCb] is not given or resolves, [patch] returns exactly
    the eight entries it pushed; if it rejects, [patch] rejects and returns
    no list. *)
Theorem patch_steps_when_all_succeed (bumpedTag : string) (latestRelease : LatestRelease)
  (client : PluginApiClient) (project : Project) (selectedPatchCommit : PatchCommit)
  (successCb : option (SuccessArgs -> option unit)) (tagParts : string) :
  clientSucceeds client ->
  let '(r, t) := runPatch bumpedTag latestRelease client project selectedPatchCommit
                   successCb tagParts in
  length (pushedSteps t) = 8 /\
  map eventKind t = expectedKinds (bool_decide (is_Some successCb)) /\
  ((forall f a, successCb = Some f -> EvSuccessCb a ∈ t -> f a = Some ()) ->
     r = Some (pushedSteps t)) /\
  ((exists f a, successCb = Some f /\ EvSuccessCb a ∈ t /\ f a = None) -> r = None).
Proof.
  intros (H1 & H2 & H3 & H4 & H5 & H6 & H7 & H8 & H9).
  unfold runPatch, patch.
  cbv [mbind mret PatchM_bind PatchM_ret request pushStep getResponseSteps].
  repeat match goal with
  | |- context [getBranch ?c ?a1 ?a2 ?a3] => destruct (H1 a1 a2 a3) as [? ->]
  | |- context [createTempCommit ?c ?a1 ?a2 ?a3 ?a4 ?a5] =>
      destruct (H2 a1 a2 a3 a4 a5) as [? ->]
  | |- context [forceBranchHeadToTempCommit ?c ?a1 ?a2 ?a3 ?a4] =>
      destruct (H3 a1 a2 a3 a4) as [[] ->]
  | |- context [mergeApi ?c ?a1 ?a2 ?a3 ?a4] => destruct (H4 a1 a2 a3 a4) as [? ->]
  | |- context [createCherryPickCommit ?c ?a1 ?a2 ?a3 ?a4 ?a5 ?a6] =>
      destruct (H5 a1 a2 a3 a4 a5 a6) as [? ->]
  | |- context [replaceTempCommit ?c ?a1 ?a2 ?a3 ?a4] => destruct (H6 a1 a2 a3 a4) as [? ->]
  | |- context [createTagObject ?c ?a1 ?a2 ?a3 ?a4] => destruct (H7 a1 a2 a3 a4) as [? ->]
  | |- context [createReference ?c ?a1 ?a2 ?a3 ?a4] => destruct (H8 a1 a2 a3 a4) as [? ->]
  | |- context [updateRelease ?c ?a1 ?a2 ?a3 ?a4 ?a5 ?a6] =>
      destruct (H9 a1 a2 a3 a4 a5 a6) as [? ->]
  end.
  unfold callSuccessCb. destruct successCb as [f|].
  - simpl. destruct (f _) as [[]|] eqn:Ef; simpl.
    + split; [done|]. split; [done|]. split; [done|].
      intros (f' & a & Hf & Hin & Ha). injection Hf as <-.
      apply successCb_event_last in Hin; [|reflexivity]. injection Hin as <-. congruence.
    + split; [done|]. split; [done|]. split; [|done].
      intros Hres. match type of Ef with f ?a = None =>
        rewrite (Hres f a eq_refl) in Ef; [done|] end.
      apply list_elem_of_In; simpl; repeat (first [left; reflexivity | right]).
  - simpl. split; [done|]. split; [done|]. split; [done|].
    intros (f' & a & Hf & _). discriminate.
Qed.

Lemma patch_steps_when_all_succeed_witness :
  clientSucceeds okClient /\
  let '(r, t) := runPatch "1.2.1" patchRelease okClient patchProject patchCommit
                   (Some (fun _ => Some ())) "patch" in
  length (pushedSteps t) = 8 /\
  map eventKind t = expectedKinds (bool_decide (is_Some (Some (fun _ : SuccessArgs => Some ())))) /\
  ((forall f a, Some (fun _ : SuccessArgs => Some ()) = Some f -> EvSuccessCb a ∈ t ->
      f a = Some ()) -> r = Some (pushedSteps t)) /\
  ((exists f a, Some (fun _ : SuccessArgs => Some ()) = Some f /\ EvSuccessCb a ∈ t /\
      f a = None) -> r = None).
Proof.
  split; [exact okClient_succeeds|].
  exact (patch_steps_when_all_succeed "1.2.1" patchRelease okClient patchProject patchCommit
           (Some (fun _ => Some ())) "patch" okClient_succeeds).
Defined.

(** C9 fails as stated: every GitHub request succeeds, but a [successCb]
    that rejects makes [patch] reject ([await successCb?.(...)]), so no list
    of steps is returned. *)
Lemma patch_rejecting_success_callback :
  clientSucceeds okClient /\
  map eventKind (runPatch "1.2.1" patchRelease okClient patchProject patchCommit
                   (Some (fun _ => None)) "patch").2 = expectedKinds true /\
  (runPatch "1.2.1" patchRelease okClient patchProject patchCommit
     (Some (fun _ => None)) "patch").1 = None.
Proof. split; [exact okClient_succeeds|]. split; vm_compute; reflexivity. Qed.

(* ------------------------------------------------------------------ *)
(** ** Further properties of the code *)

(** X1: [patch] against any client: a run that resolves returns exactly the
    steps it pushed (eight of them), after all nine requests in order, each
    of which resolved, and [successCb] when given, which resolved.  A run
    that rejects followed a prefix of that same order and ends with its
    first and only failure: its last event is a request that rejected, or a
    call of [successCb] that rejected, and every request before it resolved;
    so nothing is requested or pushed after the failure. *)
Theorem patch_run_shape (bumpedTag : string) (latestRelease : LatestRelease)
  (client : PluginApiClient) (project : Project) (selectedPatchCommit : PatchCommit)
  (successCb : option (SuccessArgs -> option unit)) (tagParts : string) :
  match runPatch bumpedTag latestRelease client project selectedPatchCommit
          successCb tagParts with
  | (Some steps, t) =>
      steps = pushedSteps t /\ length steps = 8 /\
      map eventKind t = expectedKinds (bool_decide (is_Some successCb)) /\
      (forall q b, EvRequest q b ∈ t -> b = true) /\
      (forall f a, successCb = Some f -> EvSuccessCb a ∈ t -> f a = Some ())
  | (None, t) =>
      map eventKind t `prefix_of` expectedKinds (bool_decide (is_Some successCb)) /\
      ((exists q pre, t = app pre [EvRequest q false] /\
          forall q' b, EvRequest q' b ∈ pre -> b = true) \/
       (exists f a pre, successCb = Some f /\ f a = None /\ t = app pre [EvSuccessCb a] /\
          forall q' b, EvRequest q' b ∈ pre -> b = true))
  end.
Proof.
  unfold runPatch, patch.
  cbv [mbind mret PatchM_bind PatchM_ret request pushStep getResponseSteps callSuccessCb].
  destruct successCb as [f|]; destruct_patch_results_eqn; simpl.
  all: lazymatch goal with
  | |- _ `prefix_of` _ /\ _ =>
      split; [eexists; reflexivity|]
  | |- _ => idtac
  end.
  all: try lazymatch goal with
  | |- (exists q pre, ?t = app pre [EvRequest q false] /\ _) \/ _ =>
      first
        [ left; eexists; exists (removelast t); split; [reflexivity|];
          apply requests_resolved_of; reflexivity
        | match goal with
          | |- _ \/ (exists f' a' pre', Some ?g = Some f' /\ _) =>
            match goal with E : g ?a = None |- _ =>
            right; exists g, a, (removelast t);
            split; [done|]; split; [done|]; split; [reflexivity|];
            apply requests_resolved_of; reflexivity
            end
          end ]
  end.
  all: try (split; [done|]; split; [done|]; split; [done|]; split;
    [apply requests_resolved_of; reflexivity|]).
  all: try (intros f' a Hf; discriminate).
  all: intros f' a Hf Hin; injection Hf as <-;
    apply successCb_event_last in Hin; [|reflexivity];
    simpl in Hin; injection Hin as <-;
    match goal with E : ?g _ = Some ?u |- ?g _ = Some () => destruct u; exact E end.
Qed.

(** X2: [successCb] is only called after [updateRelease] resolved, with that
    release's URL, name and tag, the previous release's tag and the
    selected commit's URL and message; the last step pushed before it
    reports the same release. *)
Theorem patch_success_args (bumpedTag : string) (latestRelease : LatestRelease)
  (client : PluginApiClient) (project : Project) (selectedPatchCommit : PatchCommit)
  (successCb : option (SuccessArgs -> option unit)) (tagParts : string) (a : SuccessArgs) :
  EvSuccessCb a ∈ (runPatch bumpedTag latestRelease client project selectedPatchCommit
                     successCb tagParts).2 ->
  exists u,
    updateRelease client (project_owner project) (project_repo project) bumpedTag
      latestRelease selectedPatchCommit tagParts = Some u /\
    a = mkSuccessArgs (ur_htmlUrl u) (ur_name u) (lr_tagName latestRelease) (ur_tagName u)
          (pc_htmlUrl selectedPatchCommit) (pc_commitMessage selectedPatchCommit) /\
    last (pushedSteps (runPatch bumpedTag latestRelease client project selectedPatchCommit
                         successCb tagParts).2) =
      Some (mkResponseStep ("Updated release " +:+ quoted (ur_name u))
              (Some ("with tag " +:+ ur_tagName u)) (Some (ur_htmlUrl u))).
Proof.
  unfold runPatch, patch.
  cbv [mbind mret PatchM_bind PatchM_ret request pushStep getResponseSteps callSuccessCb].
  destruct successCb as [f|]; destruct_patch_results; simpl; intros Hin;
    repeat (apply elem_of_cons in Hin as [Hin|Hin]; [try discriminate|]);
    try by apply not_elem_of_nil in Hin.
  all: try (injection Hin as ->; eexists; split; [reflexivity|split; reflexivity]).
Qed.

Lemma patch_success_args_witness :
  EvSuccessCb okSuccessArgs ∈
    (runPatch "1.2.1" patchRelease okClient patchProject patchCommit
       (Some (fun _ => Some ())) "patch").2 /\
  exists u,
    updateRelease okClient (project_owner patchProject) (project_repo patchProject) "1.2.1"
      patchRelease patchCommit "patch" = Some u /\
    okSuccessArgs = mkSuccessArgs (ur_htmlUrl u) (ur_name u) (lr_tagName patchRelease)
      (ur_tagName u) (pc_htmlUrl patchCommit) (pc_commitMessage patchCommit) /\
    last (pushedSteps (runPatch "1.2.1" patchRelease okClient patchProject patchCommit
                         (Some (fun _ => Some ())) "patch").2) =
      Some (mkResponseStep ("Updated release " +:+ quoted (ur_name u))
              (Some ("with tag " +:+ ur_tagName u)) (Some (ur_htmlUrl u))).
Proof.
  assert (Hin : EvSuccessCb okSuccessArgs ∈
    (runPatch "1.2.1" patchRelease okClient patchProject patchCommit
       (Some (fun _ => Some ())) "patch").2).
  { apply list_elem_of_In. vm_compute. repeat (first [left; reflexivity | right]). }
  split; [exact Hin|].
  exact (patch_success_args "1.2.1" patchRelease okClient patchProject patchCommit
           (Some (fun _ => Some ())) "patch" okSuccessArgs Hin).
Defined.

(** X3: A run of the tracker in which no started item's reference is tracked
    (it is not in [entityRefs]) leaves the tracker exactly as it was:
    [processStart] hands out the no-op tracking object and its callbacks do
    nothing; in particular the promise never resolves. *)
Theorem tracker_untracked_run_unchanged (tr : Tracker) (evs : list TrackerEvent) :
  (forall it, EvStart it ∈ evs -> isTrackedRef tr (ti_entityRef it) = false) ->
  runTracker tr [] evs = tr.
Proof. intros H. apply runTracker_noop; [constructor|done]. Qed.

Lemma tracker_untracked_run_unchanged_witness :
  (forall it, EvStart it ∈ untrackedEvents ->
     isTrackedRef (newTracker (Some ["component:default/a"])) (ti_entityRef it) = false) /\
  runTracker (newTracker (Some ["component:default/a"])) [] untrackedEvents =
    newTracker (Some ["component:default/a"]).
Proof.
  assert (H : forall it, EvStart it ∈ untrackedEvents ->
     isTrackedRef (newTracker (Some ["component:default/a"])) (ti_entityRef it) = false).
  { intros it Hin. unfold untrackedEvents in Hin.
    apply elem_of_cons in Hin as [Hin|Hin]; [injection Hin as Hin; subst it; reflexivity|].
    repeat (apply elem_of_cons in Hin as [Hin|Hin]; [discriminate|]).
    by apply not_elem_of_nil in Hin. }
  split; [exact H|].
  exact (tracker_untracked_run_unchanged (newTracker (Some ["component:default/a"]))
           untrackedEvents H).
Defined.

(** X5: A fresh tracker's promise (what [wait()] returns) never resolves before
    at least two counted callbacks (failed, with errors or no changes) have
    been made, whatever the items and the [entityRefs] filter. *)
Theorem tracker_resolves_after_two_counted (refs : option (list string))
  (evs : list TrackerEvent) (v : gmap string string) :
  tr_resolved (runTracker (newTracker refs) [] evs) = Some v ->
  (2 <= length (List.filter countedEvent evs))%nat.
Proof.
  intros Hv.
  destruct (runTracker_countInv 0 (newTracker refs) [] evs) as (_ & _ & C).
  - split; [|split].
    + intros id n Hin. unfold newTracker in Hin. simpl in Hin. by rewrite lookup_empty in Hin.
    + intros ? ? ? Hin. by apply not_elem_of_nil in Hin.
    + simpl. intros [? Hs]. done.
  - rewrite Hv in C. specialize (C (mk_is_Some _ _ eq_refl)). lia.
Qed.

Lemma tracker_resolves_after_two_counted_witness :
  tr_resolved (runTracker (newTracker (Some ["component:default/a"; "component:default/b"])) []
    earlyResolveEvents) = Some ∅ /\
  (2 <= length (List.filter countedEvent earlyResolveEvents))%nat.
Proof.
  assert (H : tr_resolved (runTracker (newTracker (Some ["component:default/a"; "component:default/b"]))
                [] earlyResolveEvents) = Some ∅) by (vm_compute; reflexivity).
  split; [exact H|].
  exact (tracker_resolves_after_two_counted (Some ["component:default/a"; "component:default/b"])
           earlyResolveEvents ∅ H).
Defined.

(** X6: Every entry of the record [wait()] resolves to (what [process()]
    returns) is an entity reference in [entityRefs] (any, when none is
    given), and its error is one that [markFailed] received on the tracking
    object of a started item with that reference. *)
Theorem tracker_resolved_errors_origin (refs : option (list string))
  (evs : list TrackerEvent) (v : gmap string string) (r e : string) :
  tr_resolved (runTracker (newTracker refs) [] evs) = Some v ->
  v !! r = Some e ->
  refTracked refs r = true /\
  exists i it, startedItems evs !! i = Some it /\ ti_entityRef it = r /\
    EvMark i (MarkFailed e) ∈ evs.
Proof.
  intros Hv Hr.
  destruct (runTracker_resolution (newTracker refs) [] evs v eq_refl Hv)
    as (evs1 & i & m & evs2 & -> & _ & _ & _ & -> & _).
  rewrite runTracker_errors in Hr. simpl in Hr.
  destruct (lastFailure_origin _ _ _ _ _ _ Hr) as [Hc|(i' & Hi' & Hl)]; [done|].
  rewrite app_nil_l, list_lookup_fmap in Hl.
  destruct (startedItems (app evs1 [EvMark i m]) !! i') as [it|] eqn:Hit; [|done].
  simpl in Hl. destruct (refTracked refs (ti_entityRef it)) eqn:Ht; [|done].
  injection Hl as Hl. subst r. split; [done|].
  exists i', it. split; [|split; [done|]].
  - unfold startedItems in *. rewrite omap_app in Hit |- *. simpl in *.
    rewrite app_nil_r in Hit. by apply lookup_app_l_Some.
  - apply elem_of_app in Hi' as [Hi'|Hi']; apply elem_of_app; [by left|].
    right. apply list_elem_of_singleton in Hi' as ->. apply list_elem_of_here.
Qed.

Lemma tracker_resolved_errors_origin_witness :
  tr_resolved (runTracker (newTracker (Some ["component:default/a"; "component:default/b"])) []
    twoItemsEvents) = Some {[ "component:default/a" := "boom" ]} /\
  ({[ "component:default/a" := "boom" ]} : gmap string string) !! "component:default/a" = Some "boom" /\
  refTracked (Some ["component:default/a"; "component:default/b"]) "component:default/a" = true /\
  exists i it, startedItems twoItemsEvents !! i = Some it /\ ti_entityRef it = "component:default/a" /\
    EvMark i (MarkFailed "boom") ∈ twoItemsEvents.
Proof.
  assert (H1 : tr_resolved (runTracker (newTracker (Some ["component:default/a"; "component:default/b"]))
                 [] twoItemsEvents) = Some {[ "component:default/a" := "boom" ]})
    by (vm_compute; reflexivity).
  assert (H2 : ({[ "component:default/a" := "boom" ]} : gmap string string) !! "component:default/a"
                 = Some "boom") by (vm_compute; reflexivity).
  split; [exact H1|]. split; [exact H2|].
  exact (tracker_resolved_errors_origin (Some ["component:default/a"; "component:default/b"])
           twoItemsEvents _ "component:default/a" "boom" H1 H2).
Defined.

(** X7: [waitForFinish()], called after some events, resolves exactly when each
    tracked item started before the call has since had a callback other
    than [markProcessorsCompleted]; untracked items and items started after
    the call are not waited for. *)
Theorem tracker_waitForFinish_awaits (refs : option (list string))
  (before after : list TrackerEvent) :
  marksAfterStarts 0 (app before after) = true ->
  (waitForFinishResolved refs before after = true <->
   forall s it, startedItems before !! s = Some it -> refTracked refs (ti_entityRef it) = true ->
     exists m, EvMark s m ∈ app before after /\ m <> MarkProcessorsCompleted).
Proof.
  intros Hwf. unfold waitForFinishResolved.
  assert (Hinv0 : slotsInv [] []).
  { repeat split; intros *; rewrite ?lookup_nil; try done. simpl. lia. }
  pose proof (inFlightRun_app refs [] [] before after) as Happ.
  destruct (inFlightRun refs [] [] before) as [sl1 fl1] eqn:H1. simpl.
  pose proof (inFlightRun_inv refs [] [] before Hinv0) as Hinv1.
  rewrite H1 in Hinv1. simpl in Hinv1. destruct Hinv1 as (A1 & B1 & C1).
  pose proof (inFlightRun_slots refs [] [] before) as Hsl. rewrite H1 in Hsl. simpl in Hsl.
  pose proof (inFlightRun_length refs sl1 fl1 after) as Hlen.
  rewrite <- Happ in Hlen.
  assert (Hpref : forall s x, sl1 !! s = Some x ->
            (inFlightRun refs [] [] (app before after)).1 !! s = Some x).
  { intros s x Hs. rewrite Happ. by apply inFlightRun_prefix. }
  assert (Hres : forall s j, sl1 !! s = Some (Some j) ->
            ((inFlightRun refs [] [] (app before after)).2 !! j = Some true <->
             exists m, EvMark s m ∈ app before after /\ m <> MarkProcessorsCompleted)).
  { intros s j Hs. rewrite (inFlightRun_resolved refs [] [] _ s j Hinv0 Hwf (Hpref _ _ Hs)).
    split; [intros [[Hn _]|H]; [done|done]|by right]. }
  assert (Hslot : forall s o, sl1 !! s = Some o ->
            exists it, startedItems before !! s = Some it /\
              (is_Some o <-> refTracked refs (ti_entityRef it) = true)).
  { intros s o Hs.
    assert (Hf : ((fun o : option nat => bool_decide (is_Some o)) <$> sl1) !! s =
                 Some (bool_decide (is_Some o))) by (rewrite list_lookup_fmap, Hs; done).
    rewrite Hsl, list_lookup_fmap in Hf.
    destruct (startedItems before !! s) as [it|]; [|done].
    exists it. split; [done|]. simpl in Hf. injection Hf as Hf.
    rewrite Hf, bool_decide_eq_true. done. }
  assert (Hslot2 : forall s it, startedItems before !! s = Some it ->
            refTracked refs (ti_entityRef it) = true -> exists j, sl1 !! s = Some (Some j)).
  { intros s it Hs Ht.
    assert (Hf : ((fun o : option nat => bool_decide (is_Some o)) <$> sl1) !! s = Some true)
      by (rewrite Hsl, list_lookup_fmap, Hs; simpl; by rewrite Ht).
    rewrite list_lookup_fmap in Hf.
    destruct (sl1 !! s) as [[j|]|]; simpl in Hf; try done. by exists j. }
  rewrite forallb_forall. split.
  - intros Hall s it Hs Ht.
    destruct (Hslot2 _ _ Hs Ht) as [j Hj].
    apply (Hres _ _ Hj).
    assert (Hjn := A1 _ _ Hj).
    destruct (lookup_lt_is_Some_2 (inFlightRun refs [] [] (app before after)).2 j) as [b Hb];
      [lia|].
    rewrite Hb. f_equal. apply Hall. apply list_elem_of_In.
    apply list_elem_of_lookup_2 with j. rewrite lookup_take_lt by done. done.
  - intros Hall b Hb. apply list_elem_of_In, list_elem_of_lookup_1 in Hb as [j Hj].
    apply lookup_take_Some in Hj as [Hj Hjn].
    destruct (C1 _ Hjn) as [s Hs].
    destruct (Hslot _ _ Hs) as (it & Hit & Ht).
    assert (Hr := proj2 (Hres _ _ Hs) (Hall _ _ Hit (proj1 Ht (mk_is_Some _ _ eq_refl)))).
    congruence.
Qed.

Lemma tracker_waitForFinish_awaits_witness :
  marksAfterStarts 0 (app finishBefore finishAfter) = true /\
  waitForFinishResolved (Some ["component:default/a"]) finishBefore finishAfter = true /\
  (waitForFinishResolved (Some ["component:default/a"]) finishBefore finishAfter = true <->
   forall s it, startedItems finishBefore !! s = Some it ->
     refTracked (Some ["component:default/a"]) (ti_entityRef it) = true ->
     exists m, EvMark s m ∈ app finishBefore finishAfter /\ m <> MarkProcessorsCompleted).
Proof.
  assert (H : marksAfterStarts 0 (app finishBefore finishAfter) = true) by reflexivity.
  split; [exact H|]. split; [vm_compute; reflexivity|].
  exact (tracker_waitForFinish_awaits (Some ["component:default/a"]) finishBefore finishAfter H).
Defined.

(** X8: [getOutputEntities] maps each entity reference to the last entity of
    the catalog's list with that reference, and has no other keys. *)
Theorem getOutputEntities_lookup (entities : list Entity) (k : string) :
  getOutputEntities entities !! k =
  last (List.filter (fun e => bool_decide (stringifyEntityRef e = k)) entities).
Proof.
  unfold getOutputEntities. induction entities as [|e es IH] using rev_ind; [done|].
  rewrite foldl_app, List.filter_app. simpl.
  case_bool_decide as Hk.
  - subst k. rewrite lookup_insert_eq. by rewrite last_snoc.
  - rewrite lookup_insert_ne by done. rewrite app_nil_r. done.
Qed.

(** X9: A tag name without ["rc-"] is shown and promoted unchanged as the
    release version. *)
Theorem releaseVersion_no_rc (tagName : string) :
  ~ (exists a b, tagName = a +:+ "rc-" +:+ b) -> releaseVersion tagName = tagName.
Proof.
  unfold releaseVersion. induction tagName as [|c s IH]; intros Hno; [done|].
  simpl. destruct (stripPrefix "rc-" (String c s)) as [r|] eqn:Hs.
  - apply stripPrefix_Some in Hs. exfalso. apply Hno. exists "", r. done.
  - simpl in Hs. rewrite Hs. f_equal. apply IH.
    intros (a & b & ->). apply Hno. exists (String c a), b. done.
Qed.

Lemma releaseVersion_no_rc_witness :
  ~ (exists a b, "1.2.0" = a +:+ "rc-" +:+ b) /\ releaseVersion "1.2.0" = "1.2.0".
Proof.
  assert (H : ~ (exists a b, "1.2.0" = a +:+ "rc-" +:+ b)).
  { intros Hab. apply containsStr_complete in Hab. vm_compute in Hab. discriminate. }
  split; [exact H|]. exact (releaseVersion_no_rc "1.2.0" H).
Defined.

(** X10: Only the first ["rc-"] of the tag name becomes ["version-"]: for a tag
    [pre ++ "rc-" ++ post] with no earlier ["rc-"], the release version is
    [pre ++ "version-" ++ post], whatever [post] holds. *)
Theorem releaseVersion_first_rc (pre post : string) :
  ~ (exists a b, pre +:+ "rc" = a +:+ "rc-" +:+ b) ->
  releaseVersion (pre +:+ "rc-" +:+ post) = pre +:+ "version-" +:+ post.
Proof.
  unfold releaseVersion. induction pre as [|c pre IH]; intros Hno.
  - simpl. done.
  - rewrite append_String.
    destruct (stripPrefix "rc-" (String c (pre +:+ "rc-" +:+ post))) as [r|] eqn:Hs.
    + exfalso. apply stripPrefix_Some in Hs. rewrite ?append_String, ?append_EmptyString in Hs.
      injection Hs as -> Hs.
      destruct pre as [|c2 [|c3 pre]]; rewrite ?append_String, ?append_EmptyString in Hs; try discriminate.
      injection Hs as -> -> Hs. apply Hno. exists "", (pre +:+ "rc"). done.
    + rewrite (replaceFirst_cons _ _ _ _ Hs).
      change (String c pre +:+ "version-" +:+ post) with (String c (pre +:+ "version-" +:+ post)).
      f_equal. apply IH.
      intros (a & b & Hab). apply Hno. exists (String c a), b. change (String c a +:+ "rc-" +:+ b) with (String c (a +:+ "rc-" +:+ b)). rewrite <- Hab. reflexivity.
Qed.

Lemma releaseVersion_first_rc_witness :
  ~ (exists a b, "" +:+ "rc" = a +:+ "rc-" +:+ b) /\
  releaseVersion ("" +:+ "rc-" +:+ "1.2.0-rc-1") = "" +:+ "version-" +:+ "1.2.0-rc-1".
Proof.
  assert (H : ~ (exists a b, "" +:+ "rc" = a +:+ "rc-" +:+ b)).
  { intros Hab. apply containsStr_complete in Hab. vm_compute in Hab. discriminate. }
  split; [exact H|]. exact (releaseVersion_first_rc "" "1.2.0-rc-1" H).
Defined.
